(** * Huckel_Solver.py: a shallow embedding and its verified properties

    The script builds the Hückel matrix of a linear chain, a ring or one of
    four Platonic solids, hands it to [numpy.linalg.eigvals], and reports the
    energy levels with their degeneracies.

    Conventions of the embedding.
    - Matrix entries are the integers the script stores ([alpha], [beta] and
      [0] are Python ints; a float64 array holds them exactly), so an array
      is a [list (list Z)].
    - Eigenvalues are the rationals denoted by the floats numpy returns; the
      eigenvalue routine itself and the iteration order of a Python [set]
      are parameters of the pipeline.
    - A value rounded by ["%.3f"] is kept as its number of thousandths.
    - Memory is unbounded: [np.zeros] succeeds for every size that is not
      negative, and [int] reads a literal of any length.
    - The console is explicit state: the lines still to be read, the events
      written so far, and the rows of the CSV file. *)

From Stdlib Require Import ZArith QArith String Ascii List Lia DecimalString.
From stdpp Require Import base list sorting strings.

Local Open Scope Z_scope.

(** ** Python values, exceptions and the console *)

Inductive exn :=
| ValueError   (* numpy: negative dimensions are not allowed *)
| IndexError   (* index out of bounds for an axis *)
| EOFError     (* input() at the end of stdin *)
| SystemExit.  (* sys.exit() *)

Inductive result (A : Type) :=
| Ok (a : A)
| Raise (e : exn).
Arguments Ok {A} a.
Arguments Raise {A} e.

#[global] Instance result_ret : MRet result := λ A a, Ok a.
#[global] Instance result_bind : MBind result := λ A B f m,
  match m with
  | Ok a => f a
  | Raise e => Raise e
  end.

(** A cell of a report row: a string, a float with three decimals (kept as
    thousandths: [CFloat (-1000)] is the float [-1.0]) or an int. *)
Inductive cell :=
| CStr (s : string)
| CFloat (thousandths : Z)
| CInt (n : Z).

Definition row := list cell.

Inductive event :=
| Prompt (s : string)     (* the prompt written by input(s) *)
| Print (s : string)      (* print(s); print() is [Print ""] *)
| PrintRow (r : row).     (* print(i) for a row of the table *)

(** The module-level variables of the script together with the console. *)
Record world := World {
  matrix : list (list Z);
  alpha : Z;
  beta : Z;
  stdin : list string;
  stdout : list event;
  csv : option (list row)
}.

(** The state of a fresh run: [matrix = []], [alpha = 0], [beta = -1]. *)
Definition module_init (lines : list string) : world :=
  World [] 0 (-1) lines [] None.

Definition set_matrix (m : list (list Z)) (w : world) : world :=
  World m (alpha w) (beta w) (stdin w) (stdout w) (csv w).
Definition set_console (lines : list string) (out : list event) (w : world) : world :=
  World (matrix w) (alpha w) (beta w) lines out (csv w).
Definition set_csv (f : option (list row)) (w : world) : world :=
  World (matrix w) (alpha w) (beta w) (stdin w) (stdout w) f.
Definition emit (evs : list event) (w : world) : world :=
  set_console (stdin w) (stdout w ++ evs) w.

Definition IO (A : Type) : Type := world → result A * world.

#[global] Instance IO_ret : MRet IO := λ A a w, (Ok a, w).
#[global] Instance IO_bind : MBind IO := λ A B f m w,
  match m w with
  | (Ok a, w') => f a w'
  | (Raise e, w') => (Raise e, w')
  end.

Definition lift {A} (r : result A) : IO A := λ w, (r, w).
Definition print (s : string) : IO unit := λ w, (Ok tt, emit [Print s] w).

(** ** [str.lower] and [int] on ASCII text *)

(** [str.lower] maps the ASCII capitals to small letters; every other byte
    is left as it is. *)
Definition lower_ascii (c : ascii) : ascii :=
  let n := nat_of_ascii c in
  if ((65 <=? n) && (n <=? 90))%nat then ascii_of_nat (n + 32) else c.

Fixpoint lower (s : string) : string :=
  match s with
  | EmptyString => EmptyString
  | String c s' => String (lower_ascii c) (lower s')
  end.

Definition is_space (c : ascii) : bool :=
  let n := nat_of_ascii c in
  (((9 <=? n) && (n <=? 13)) || ((28 <=? n) && (n <=? 32)))%nat.

Definition digit_of (c : ascii) : option Z :=
  let n := nat_of_ascii c in
  if ((48 <=? n) && (n <=? 57))%nat then Some (Z.of_nat n - 48) else None.

Fixpoint lstrip (cs : list ascii) : list ascii :=
  match cs with
  | c :: cs' => if is_space c then lstrip cs' else cs
  | [] => []
  end.

Definition strip (cs : list ascii) : list ascii :=
  rev (lstrip (rev (lstrip cs))).

(** The digits after the first one: a digit, or one underscore followed by a
    digit. *)
Fixpoint int_digits (acc : Z) (cs : list ascii) : option Z :=
  match cs with
  | [] => Some acc
  | c :: cs' =>
      match digit_of c with
      | Some d => int_digits (10 * acc + d) cs'
      | None =>
          if Ascii.eqb c "_" then
            match cs' with
            | c2 :: cs'' =>
                match digit_of c2 with
                | Some d => int_digits (10 * acc + d) cs''
                | None => None
                end
            | [] => None
            end
          else None
      end
  end.

Definition int_unsigned (cs : list ascii) : option Z :=
  match cs with
  | c :: cs' =>
      match digit_of c with
      | Some d => int_digits d cs'
      | None => None
      end
  | [] => None
  end.

(** [int(num)] for a string of ASCII characters: surrounding whitespace, an
    optional sign, decimal digits with single underscores between them.
    [None] stands for the [ValueError] that [int] raises. *)
Definition int (num : string) : option Z :=
  match strip (list_ascii_of_string num) with
  | c :: cs =>
      if Ascii.eqb c "-" then Z.opp <$> int_unsigned cs
      else if Ascii.eqb c "+" then int_unsigned cs
      else int_unsigned (c :: cs)
  | [] => None
  end.

(** ** numpy arrays *)

(** [np.zeros((n, m))]. *)
Definition np_zeros (n m : Z) : result (list (list Z)) :=
  if (n <? 0) || (m <? 0) then Raise ValueError
  else Ok (replicate (Z.to_nat n) (replicate (Z.to_nat m) 0)).

(** An index on an axis of length [len]: negative indices count from the
    end, anything else outside the axis is an [IndexError]. *)
Definition norm_index (len : nat) (i : Z) : result nat :=
  if (0 <=? i) && (i <? Z.of_nat len) then Ok (Z.to_nat i)
  else if (- Z.of_nat len <=? i) && (i <? 0) then Ok (Z.to_nat (i + Z.of_nat len))
  else Raise IndexError.

(** [a[i, j] = v]. *)
Definition setitem (a : list (list Z)) (i j : Z) (v : Z) : result (list (list Z)) :=
  r ← norm_index (length a) i;
  match a !! r with
  | Some line =>
      c ← norm_index (length line) j;
      Ok (<[r := <[c := v]> line]> a)
  | None => Raise IndexError
  end.

(** [range(a, b)] and a [for] loop whose body updates one variable. *)
Definition range (a b : Z) : list Z := seqZ a (b - a).

Fixpoint for_ {S : Type} (l : list Z) (body : Z → S → result S) (s : S) : result S :=
  match l with
  | [] => Ok s
  | i :: l' => s' ← body i s; for_ l' body s'
  end.

(** [l[i]] on a Python list. *)
Definition getitem {A} (l : list A) (i : Z) : result A :=
  k ← norm_index (length l) i;
  match l !! k with
  | Some x => Ok x
  | None => Raise IndexError
  end.

(** ** The matrix builders *)

(** The prompt loop shared by the linear and the cyclic builder: it asks
    until [int(num)] succeeds. Each turn consumes one line of input. *)
Fixpoint input_int (prompt : string) (lines : list string) (out : list event)
  : result Z * (list string * list event) :=
  let out1 := out ++ [Print ""; Prompt prompt] in
  match lines with
  | [] => (Raise EOFError, ([], out1))
  | num :: rest =>
      match int num with
      | Some n => (Ok n, (rest, out1))
      | None =>
          input_int prompt rest
            (out1 ++ [Print ""; Print "Please enter an integer number of carbons."])
      end
  end.

Definition ask_int (prompt : string) : IO Z := λ w,
  let '(r, (lines, out)) := input_int prompt (stdin w) (stdout w) in
  (r, set_console lines out w).

Definition linear_fill (alpha beta n : Z) : result (list (list Z)) :=
  base_matrix_linear ← np_zeros n n;
  base_matrix_linear ←
    for_ (range 0 n) (λ i a, setitem a i i alpha) base_matrix_linear;
  base_matrix_linear ←
    for_ (range 1 n) (λ i a, setitem a i (i - 1) beta) base_matrix_linear;
  base_matrix_linear ←
    for_ (range 1 n) (λ i a, setitem a (i - 1) i beta) base_matrix_linear;
  Ok base_matrix_linear.

Definition Huckel_Solver_linear_n_polyene : IO (list (list Z)) := λ w,
  (n ← ask_int "How many carbons in your linear poly-ene? ";
   lift (linear_fill (alpha w) (beta w) n)) w.

Definition cyclic_fill (alpha beta n : Z) : result (list (list Z)) :=
  base_matrix_cyclic ← np_zeros n n;
  base_matrix_cyclic ←
    for_ (range 0 n) (λ i a, setitem a i i alpha) base_matrix_cyclic;
  base_matrix_cyclic ←
    for_ (range 1 n) (λ i a, setitem a i (i - 1) beta) base_matrix_cyclic;
  base_matrix_cyclic ←
    for_ (range 1 n) (λ i a, setitem a (i - 1) i beta) base_matrix_cyclic;
  base_matrix_cyclic ← setitem base_matrix_cyclic 0 (n - 1) beta;
  base_matrix_cyclic ← setitem base_matrix_cyclic (n - 1) 0 beta;
  Ok base_matrix_cyclic.

Definition Huckel_Solver_cyclic_n_polyene : IO (list (list Z)) := λ w,
  (n ← ask_int "How many carbons in your cyclic poly-ene? ";
   lift (cyclic_fill (alpha w) (beta w) n)) w.

(** [Huckel_Solver_Platonic_Solid]: the four fixed matrices. The function
    binds its own [alpha = 0] and [beta = -1]; the module-level variables of
    the same names are not read. *)
Section platonic.
Let alpha : Z := 0.
Let beta : Z := -1.

Definition base_matrix_tetrahedron : result (list (list Z)) :=
  let base := [[beta; beta; beta; beta];
               [beta; beta; beta; beta];
               [beta; beta; beta; beta];
               [beta; beta; beta; beta]] in
  for_ (range 0 4) (λ i a, setitem a i i alpha) base.

Definition huckel_matrix_octahedron : result (list (list Z)) :=
  base_matrix_octahedron ← np_zeros 6 6;
  let huckel_matrix_octahedron := map (map (λ x, x + beta)) base_matrix_octahedron in
  for_ (range 0 6)
    (λ i a, a ← setitem a i i alpha; setitem a i (6 - i - 1) 0)
    huckel_matrix_octahedron.

Definition column_elem : list (list Z) :=
  [[1;2;4]; [0;3;5]; [0;3;6]; [1;2;7]; [0;5;6];
   [1;4;7]; [2;4;7]; [3;5;6]].

Definition column_elem_dodec : list (list Z) :=
  [[13;14;15]; [4;5;12]; [6;13;18]; [7;14;19];
   [1;10;18]; [1;11;19]; [2;10;15]; [3;11;15];
   [9;13;16]; [8;14;17]; [4;6;11]; [5;7;10];
   [1;16;17]; [0;2;8]; [0;3;9]; [0;6;7];
   [8;12;18]; [9;12;19]; [2;4;16]; [3;5;17]].

(** The loop that writes the three [beta] entries of every row of an
    adjacency table. *)
Definition fill_columns (table : list (list Z)) (a : list (list Z))
  : result (list (list Z)) :=
  for_ (range 0 (Z.of_nat (length table)))
    (λ i a,
       c0 ← (getitem table i ≫= λ t, getitem t 0); a ← setitem a i c0 beta;
       c1 ← (getitem table i ≫= λ t, getitem t 1); a ← setitem a i c1 beta;
       c2 ← (getitem table i ≫= λ t, getitem t 2); setitem a i c2 beta) a.

Definition base_matrix_cube : result (list (list Z)) :=
  base ← np_zeros 8 8;
  base ← for_ (range 0 8) (λ i a, setitem a i i alpha) base;
  fill_columns column_elem base.

Definition base_matrix_dodec : result (list (list Z)) :=
  base ← np_zeros 20 20;
  base ← for_ (range 0 20) (λ i a, setitem a i i alpha) base;
  fill_columns column_elem_dodec base.
End platonic.

Definition shape_message : string :=
  "Your shape should be a tetrahedron, cube, octahedron or dodecahedron. Type none to quit.".

Fixpoint input_shape (lines : list string) (out : list event)
  : result (list (list Z)) * (list string * list event) :=
  let out1 := out ++ [Print ""; Prompt "What kind of shape do you have? "] in
  match lines with
  | [] => (Raise EOFError, ([], out1))
  | shape :: rest =>
      if String.eqb (lower shape) "tetrahedron" then (base_matrix_tetrahedron, (rest, out1))
      else if String.eqb (lower shape) "octahedron" then (huckel_matrix_octahedron, (rest, out1))
      else if String.eqb (lower shape) "cube" then (base_matrix_cube, (rest, out1))
      else if String.eqb (lower shape) "dodecahedron" then (base_matrix_dodec, (rest, out1))
      else if String.eqb shape "none" then (Raise SystemExit, (rest, out1))
      else input_shape rest (out1 ++ [Print shape_message])
  end.

Definition Huckel_Solver_Platonic_Solid : IO (list (list Z)) := λ w,
  let '(r, (lines, out)) := input_shape (stdin w) (stdout w) in
  (r, set_console lines out w).

(** ** Rounding to three decimals *)

(** The integer nearest to [1000 * q], ties to the even one: the digits
    that ["%.3f" % q] prints. *)
Definition round3 (q : Q) : Z :=
  let n := 1000 * Qnum q in
  let d := Z.pos (Qden q) in
  let fl := n / d in
  let r := n mod d in
  if 2 * r <? d then fl
  else if d <? 2 * r then fl + 1
  else if Z.even fl then fl else fl + 1.

Definition decimal (n : Z) : string := NilZero.string_of_uint (N.to_uint (Z.to_N n)).

Definition pad3 (n : Z) : string :=
  if n <? 10 then "00" +:+ decimal n
  else if n <? 100 then "0" +:+ decimal n
  else decimal n.

(** ["%.3f" % q]: a negative value keeps its sign even when it rounds to
    zero. *)
Definition format3 (q : Q) : string :=
  let k := Z.abs (round3 q) in
  (if Qlt_le_dec q 0 then "-" else "") +:+ decimal (k / 1000) +:+ "." +:+ pad3 (k mod 1000).

(** Python's [sum]: start from 0, add from the left. *)
Definition sum (l : list Q) : Q := fold_left Qplus l 0%Q.

(** ** Ordering used by [np.sort] and [sorted] *)

#[global] Instance Qle_dec (x y : Q) : Decision (x <= y)%Q.
Proof.
  destruct (Qlt_le_dec y x) as [Hlt | Hle].
  - right. apply Qlt_not_le, Hlt.
  - left. exact Hle.
Defined.

(** Two-element lists [[x, count]] compare like Python lists: by [x], then
    by [count]. *)
Definition level : Type := Z * Z.

Definition level_le (a b : level) : Prop :=
  a.1 < b.1 ∨ (a.1 = b.1 ∧ a.2 ≤ b.2).

#[global] Instance level_le_dec (a b : level) : Decision (level_le a b).
Proof. unfold level_le. apply _. Defined.

Definition level_row (l : level) : row := [CFloat l.1; CInt l.2].

Definition quote : string := String (ascii_of_nat 34) EmptyString.

Definition problem_message : string :=
  "You should input " +:+ quote +:+ "linear" +:+ quote +:+ ", " +:+ quote
  +:+ "cyclic" +:+ quote +:+ " or " +:+ quote +:+ "Platonic solid." +:+ quote
  +:+ " To exit the program, type exit.".

(** ** The pipeline *)

Section pipeline.
(** [numpy.linalg.eigvals], and the order in which a Python [set] built
    from a list is iterated. *)
Variable eigvals : list (list Z) → list Q.
Variable set_ : list Z → list Z.

Definition get_evals : IO (list Q) := λ w,
  let evalues := eigvals (matrix w) in
  let evalues_numpy := merge_sort Qle evalues in
  (Ok evalues_numpy, w).

(** [eigenval_sum] and [evalue_sum_list], which the function also forms,
    are not used by it and are left out. *)
Definition Degeneracy_count : IO (list row) :=
  eval_list ← get_evals;
  let nice_eval_list := round3 <$> eval_list in
  let degeneracy_base := [[CStr "Energy"; CStr "Degeneracy"]] in
  let degeneracies :=
    (λ x, (x, Z.of_nat (count_occ Z.eq_dec nice_eval_list x))) <$> set_ nice_eval_list in
  let degeneracies_sorted := merge_sort level_le degeneracies in
  let degen_final := degeneracy_base ++ (level_row <$> degeneracies_sorted) in
  mret degen_final.

(** The first loop of [General_Huckel_Solver]: ask for the kind of
    molecule until a builder is chosen. *)
Fixpoint input_problem (w : world) (lines : list string) (out : list event)
  : result (list (list Z)) * world :=
  let out1 :=
    out ++ [Prompt "Do you have a linear polyene, cyclic polyene or a sp2 hybridized Platonic solid? "] in
  match lines with
  | [] => (Raise EOFError, set_console [] out1 w)
  | problem_type :: rest =>
      let w1 := set_console rest out1 w in
      if String.eqb (lower problem_type) "linear" then Huckel_Solver_linear_n_polyene w1
      else if String.eqb (lower problem_type) "cyclic" then Huckel_Solver_cyclic_n_polyene w1
      else if String.eqb (lower problem_type) "platonic solid" then Huckel_Solver_Platonic_Solid w1
      else if String.eqb problem_type "exit" then (Raise SystemExit, w1)
      else input_problem w rest (out1 ++ [Print ""; Print problem_message])
  end.

Definition write_rows (rows : list row) : IO unit := λ w,
  (Ok tt, set_csv (Some (default [] (csv w) ++ rows)) w).

Definition General_Huckel_Solver : IO unit :=
  m ← (λ w, input_problem w (stdin w) (stdout w));
  (λ w, (Ok tt, set_matrix m w));;
  eval_list_fun ← get_evals;
  let eigenval_sum := format3 (sum eval_list_fun) in
  let evalue_sum_statement := "The sum of the Huckel energies is " +:+ eigenval_sum in
  final_list ← Degeneracy_count;
  print "";;
  (λ w, (Ok tt, emit (PrintRow <$> final_list) w));;
  print "";;
  print evalue_sum_statement;;
  (λ w, (Ok tt, set_csv (Some []) w));;
  items ← Degeneracy_count;
  write_rows items;;
  write_rows [[CStr evalue_sum_statement]].
End pipeline.

(** ** Reading a matrix *)

(** [a[i][j]] for indices inside the array. *)
Definition get (a : list (list Z)) (i j : nat) : option Z :=
  line ← a !! i; line !! j.

Definition symmetric (a : list (list Z)) : Prop :=
  ∀ i j, get a i j = get a j i.

Definition square (n : nat) (a : list (list Z)) : Prop :=
  length a = n ∧ Forall (λ line, length line = n) a.

Definition trace (a : list (list Z)) : Z :=
  foldr Z.add 0 ((λ i, default 0 (get a i i)) <$> seq 0 (length a)).

(** The array whose entry [(i, j)] is [f i j], for [0 <= i, j < n]. *)
Definition tabulate (n : Z) (f : Z → Z → Z) : list (list Z) :=
  (λ i, f i <$> seqZ 0 n) <$> seqZ 0 n.

Definition upd (f : Z → Z → Z) (i j v : Z) : Z → Z → Z :=
  λ a b, if decide (a = i ∧ b = j) then v else f a b.

(** The effect of a loop of assignments [a[p i, q i] = v] on the entries. *)
Definition fold_upd (l : list Z) (p q : Z → Z) (v : Z) (f : Z → Z → Z) : Z → Z → Z :=
  fold_left (λ g i, upd g (p i) (q i) v) l f.

(** ** Vocabulary of the statements *)

(** Entry [(a, b)] of the chain matrix: [beta] next to the diagonal,
    [alpha] on it, [0] elsewhere; and of the ring matrix, where the two
    wraparound positions are written last. *)
Definition linear_entry (alpha beta : Z) (a b : Z) : Z :=
  if decide (b = a + 1 ∨ a = b + 1) then beta
  else if decide (a = b) then alpha else 0.

Definition cyclic_entry (alpha beta n : Z) (a b : Z) : Z :=
  if decide ((a = 0 ∧ b = n - 1) ∨ (a = n - 1 ∧ b = 0)) then beta
  else linear_entry alpha beta a b.

Definition linear_prompt : string := "How many carbons in your linear poly-ene? ".
Definition cyclic_prompt : string := "How many carbons in your cyclic poly-ene? ".

(** What the size prompt writes when it accepts a line, and when it refuses
    one. *)
Definition int_prompt_events (prompt : string) : list event :=
  [Print ""; Prompt prompt].

Definition int_retry_events (prompt : string) : list event :=
  int_prompt_events prompt ++ [Print ""; Print "Please enter an integer number of carbons."].

(** The four shapes that [Huckel_Solver_Platonic_Solid] recognises, the
    matrix it computes for each, its number of vertices and the degree of
    a vertex of the polyhedron. *)
Inductive solid := Tetrahedron | Octahedron | Cube | Dodecahedron.

Definition solid_name (s : solid) : string :=
  match s with
  | Tetrahedron => "tetrahedron"
  | Octahedron => "octahedron"
  | Cube => "cube"
  | Dodecahedron => "dodecahedron"
  end.

Definition solid_matrix (s : solid) : result (list (list Z)) :=
  match s with
  | Tetrahedron => base_matrix_tetrahedron
  | Octahedron => huckel_matrix_octahedron
  | Cube => base_matrix_cube
  | Dodecahedron => base_matrix_dodec
  end.

Definition solid_size (s : solid) : nat :=
  match s with
  | Tetrahedron => 4
  | Octahedron => 6
  | Cube => 8
  | Dodecahedron => 20
  end%nat.

Definition solid_degree (s : solid) : nat :=
  match s with
  | Tetrahedron => 3
  | Octahedron => 4
  | Cube => 3
  | Dodecahedron => 3
  end%nat.

Definition shape_prompt_events : list event :=
  [Print ""; Prompt "What kind of shape do you have? "].

(** The answers, in lower case, that the shape prompt recognises. *)
Definition is_solid_name (t : string) : Prop :=
  t = "tetrahedron" ∨ t = "octahedron" ∨ t = "cube" ∨ t = "dodecahedron".

(** Row [i] without its diagonal entry holds exactly [k] entries equal to
    [beta], and nothing but [beta] and [0]. *)
Definition row_degree (beta : Z) (k : nat) (i : nat) (line : list Z) : Prop :=
  count_occ Z.eq_dec (delete i line) beta = k
  ∧ Forall (λ x, x = beta ∨ x = 0) (delete i line).

#[global] Instance row_degree_dec beta k i line : Decision (row_degree beta k i line).
Proof. unfold row_degree. apply _. Defined.

Definition regular (beta : Z) (k : nat) (a : list (list Z)) : Prop :=
  ∀ i line, a !! i = Some line → row_degree beta k i line.

(** The six kinds of molecule. *)
Inductive kind := Linear | Cyclic | Platonic (s : solid).

Definition kind_name (k : kind) : string :=
  match k with
  | Linear => "linear"
  | Cyclic => "cyclic"
  | Platonic s => solid_name s
  end.

(** What a builder of kind [k] can return under the module's [alpha], [beta]. *)
Definition built_as (k : kind) (alpha beta : Z) (M : list (list Z)) : Prop :=
  match k with
  | Linear => ∃ n, linear_fill alpha beta n = Ok M
  | Cyclic => ∃ n, cyclic_fill alpha beta n = Ok M
  | Platonic s => solid_matrix s = Ok M
  end.

(** The answers, in lower case, that the kind prompt recognises. *)
Definition is_problem_name (t : string) : Prop :=
  t = "linear" ∨ t = "cyclic" ∨ t = "platonic solid".

Definition problem_prompt_events : list event :=
  [Prompt "Do you have a linear polyene, cyclic polyene or a sp2 hybridized Platonic solid? "].

(** What iterating over [set(l)] may yield: every element of [l], once. *)
Definition set_spec (set_ : list Z → list Z) : Prop :=
  ∀ l, NoDup (set_ l) ∧ ∀ x, x ∈ set_ l ↔ x ∈ l.

Definition header : row := [CStr "Energy"; CStr "Degeneracy"].

(** The sorted [[x, count]] pairs that [Degeneracy_count] computes from the
    list of eigenvalues. *)
Definition levels_of (set_ : list Z → list Z) (eval_list : list Q) : list level :=
  let nice_eval_list := round3 <$> eval_list in
  merge_sort level_le
    ((λ x, (x, Z.of_nat (count_occ Z.eq_dec nice_eval_list x))) <$> set_ nice_eval_list).

(** The state in which the solver ends after a builder returned [m] in
    state [w1]. *)
Definition report_world (eigvals : list (list Z) → list Q) (set_ : list Z → list Z)
    (m : list (list Z)) (w1 : world) : world :=
  let eval_list := merge_sort Qle (eigvals m) in
  let statement := "The sum of the Huckel energies is " +:+ format3 (sum eval_list) in
  let table := header :: (level_row <$> levels_of set_ eval_list) in
  set_csv (Some (table ++ [[CStr statement]]))
    (emit ([Print ""] ++ (PrintRow <$> table) ++ [Print ""; Print statement])
       (set_matrix m w1)).

(** Matrix-vector product over the rationals. *)
Definition dot (line : list Z) (v : list Q) : Q :=
  foldr Qplus 0%Q (zip_with (λ x y, (inject_Z x * y)%Q) line v).

Definition mat_vec (a : list (list Z)) (v : list Q) : list Q :=
  (λ line, dot line v) <$> a.

(** [lam] is an eigenvalue of [a]: some non-zero vector is scaled by it. *)
Definition eigenvalue (a : list (list Z)) (lam : Q) : Prop :=
  ∃ v, length v = length a
       ∧ Exists (λ x, ¬ (x == 0)%Q) v
       ∧ Forall2 Qeq (mat_vec a v) (Qmult lam <$> v).

(** ** Sample runs

    A session that first mistypes the size of a four-ring; the module with
    other parameters than the defaults; spectra for the tables. *)

Definition four_ring_input : world := module_init ["four"; "4"].

Definition four_ring_matrix : list (list Z) :=
  [[0; -1; 0; -1]; [-1; 0; -1; 0]; [0; -1; 0; -1]; [-1; 0; -1; 0]].

Definition four_ring_output : world :=
  World [] 0 (-1) []
    (int_retry_events cyclic_prompt ++ int_prompt_events cyclic_prompt) None.

Definition altered_module (lines : list string) : world :=
  World [] 2 (-3) lines [] None.

(** A noisy spectrum of the four-ring: 2, two values near 0 that round to
    0.000, and -2. *)
Definition noisy_spectrum : list Q := [2; 1 # 10000; -2; -(1 # 20000)]%Q.

Definition two_chain : list (list Z) := [[0; -1]; [-1; 0]].

Definition two_chain_table : list row :=
  [[CStr "Energy"; CStr "Degeneracy"]; [CFloat (-1000); CInt 1]; [CFloat 1000; CInt 1]].

Definition two_chain_statement : string := "The sum of the Huckel energies is 0.000".

(** ** Vocabulary of the further properties *)

(** Entry [(i, j)] of the chain of [alpha], [beta], and of the ring of [n]
    atoms, written with the indices of the array. *)
Definition chain_value (alpha beta : Z) (i j : nat) : Z :=
  if decide (j = S i ∨ i = S j) then beta
  else if decide (i = j) then alpha else 0.

Definition ring_value (alpha beta : Z) (n : nat) (i j : nat) : Z :=
  if decide ((i = 0 ∧ S j = n) ∨ (S i = n ∧ j = 0))%nat then beta
  else chain_value alpha beta i j.

(** The matrix [M] has [n] rows and columns and [M[i][j] = f i j]. *)
Definition has_entries (n : nat) (f : nat → nat → Z) (M : list (list Z)) : Prop :=
  square n M ∧ ∀ i j, (i < n)%nat → (j < n)%nat → get M i j = Some (f i j).

(** The number of neighbours of atom [i] in a chain of [n] atoms. *)
Definition chain_degree (n : nat) (i : nat) : nat :=
  if decide (i = 0 ∨ S i = n)%nat then 1%nat else 2%nat.

(** The three columns that the adjacency table lists for row [i]. *)
Definition neighbours (table : list (list Z)) (i : nat) : list Z :=
  take 3 (default [] (table !! i)).

(** An adjacency table for an array of [n] columns: every row lists at
    least three columns, the first three inside the array. *)
Definition valid_table (n : nat) (table : list (list Z)) : Prop :=
  (length table ≤ n)%nat
  ∧ Forall (λ t, (3 ≤ length t)%nat ∧ Forall (λ c, 0 ≤ c < Z.of_nat n) (take 3 t)) table.

(** Entry [(i, j)] of the matrix of a solid: the complete graph, the
    complete graph without the antipodal pairs [(i, 5 - i)], and the graphs
    of the two adjacency tables. *)
Definition solid_value (s : solid) (i j : nat) : Z :=
  match s with
  | Tetrahedron => if decide (i = j) then 0 else -1
  | Octahedron => if decide (i = j ∨ (i + j = 5)%nat) then 0 else -1
  | Cube => if decide (Z.of_nat j ∈ neighbours column_elem i) then -1 else 0
  | Dodecahedron => if decide (Z.of_nat j ∈ neighbours column_elem_dodec i) then -1 else 0
  end.

(** The events of [k] refused answers followed by one more prompt. *)
Definition retries (k : nat) (refusal prompt : list event) : list event :=
  concat (replicate k refusal) ++ prompt.

Definition shape_retry_events : list event :=
  shape_prompt_events ++ [Print shape_message].

Definition problem_retry_events : list event :=
  problem_prompt_events ++ [Print ""; Print problem_message].

(** An event that is not a printed table row. *)
Definition no_row (e : event) : Prop :=
  match e with
  | PrintRow _ => False
  | _ => True
  end.

(** [w'] differs from [w] at most in its console: input was consumed from
    the front, and what was written is appended and holds no table row. *)
Definition console_only (w w' : world) : Prop :=
  matrix w' = matrix w ∧ alpha w' = alpha w ∧ beta w' = beta w ∧ csv w' = csv w
  ∧ stdin w' `suffix_of` stdin w
  ∧ ∃ evs, stdout w' = stdout w ++ evs ∧ Forall no_row evs.

(** A computation whose result and console effect are the same in every
    state with the given parameters and console, and which changes nothing
    but the console. *)
Definition uniform {A} (m : IO A) (a b : Z) (lines : list string) (out : list event)
  : Prop :=
  ∃ r lines' out',
    lines' `suffix_of` lines
    ∧ (∃ evs, out' = out ++ evs ∧ Forall no_row evs)
    ∧ ∀ w, alpha w = a → beta w = b → stdin w = lines → stdout w = out →
           m w = (r, set_console lines' out' w).

(** How [General_Huckel_Solver] goes on from what a builder returned: the
    report for a matrix, the same failure otherwise. *)
Definition after_builder (eigvals : list (list Z) → list Q) (set_ : list Z → list Z)
    (res : result (list (list Z)) * world) : result unit * world :=
  match res with
  | (Ok m, w2) => (Ok tt, report_world eigvals set_ m w2)
  | (Raise e, w2) => (Raise e, w2)
  end.

(** More sample runs. *)

Definition stale_module : world :=
  World [[5]] 0 (-1) ["cyclic"; "0"; "unread"] [Print "earlier"] (Some [[CStr "old row"]]).

Definition stale_module_failed : world :=
  set_console ["unread"]
    ([Print "earlier"] ++ problem_prompt_events ++ int_prompt_events cyclic_prompt)
    stale_module.

Definition fresh_two_chain : world := module_init ["linear"; "2"].

Definition stale_two_chain : world :=
  World [[5]] 0 (-1) ["linear"; "2"] [] (Some [[CStr "old row"]]).

Definition close_spectrum : list Q := [1 # 1000; 21 # 10000]%Q.

(** * Facts about the embedding *)

Section tabulate_facts.
Implicit Types (n i j v : Z) (f : Z → Z → Z).

Lemma length_tabulate n f : length (tabulate n f) = Z.to_nat n.
Proof. unfold tabulate. by rewrite length_fmap, length_seqZ. Qed.

Lemma lookup_tabulate n f (r : nat) :
  Z.of_nat r < n → tabulate n f !! r = Some (f (Z.of_nat r) <$> seqZ 0 n).
Proof.
  intros Hr. unfold tabulate.
  rewrite list_lookup_fmap, lookup_seqZ_lt by lia. simpl. by rewrite Z.add_0_l.
Qed.

Lemma lookup_tabulate_ge n f (r : nat) :
  n ≤ Z.of_nat r → tabulate n f !! r = None.
Proof.
  intros Hr. unfold tabulate.
  by rewrite list_lookup_fmap, lookup_seqZ_ge by lia.
Qed.

Lemma get_tabulate n f (r c : nat) :
  Z.of_nat r < n → Z.of_nat c < n →
  get (tabulate n f) r c = Some (f (Z.of_nat r) (Z.of_nat c)).
Proof.
  intros Hr Hc. unfold get. rewrite lookup_tabulate by done. simpl.
  rewrite list_lookup_fmap, lookup_seqZ_lt by lia. simpl. by rewrite Z.add_0_l.
Qed.

Lemma get_tabulate_None n f (r c : nat) :
  n ≤ Z.of_nat r ∨ n ≤ Z.of_nat c → get (tabulate n f) r c = None.
Proof.
  intros Hrc. unfold get.
  destruct (decide (Z.of_nat r < n)) as [Hr | Hr].
  - rewrite lookup_tabulate by done. simpl.
    rewrite list_lookup_fmap, lookup_seqZ_ge by lia. done.
  - by rewrite lookup_tabulate_ge by lia.
Qed.

Lemma tabulate_ext n f g :
  (∀ a b, 0 ≤ a < n → 0 ≤ b < n → f a b = g a b) → tabulate n f = tabulate n g.
Proof.
  intros Hfg. unfold tabulate.
  apply list_fmap_ext. intros r a Ha.
  apply lookup_seqZ in Ha as [-> Hr].
  apply list_fmap_ext. intros c b Hb.
  apply lookup_seqZ in Hb as [-> Hc].
  apply Hfg; lia.
Qed.

Lemma np_zeros_tabulate n : 0 ≤ n → np_zeros n n = Ok (tabulate n (λ _ _, 0)).
Proof.
  intros Hn. unfold np_zeros.
  destruct (n <? 0) eqn:E; [lia|]. simpl. f_equal.
  apply list_eq. intros r.
  destruct (decide (Z.of_nat r < n)) as [Hr | Hr].
  - rewrite lookup_tabulate, lookup_replicate_2 by lia. f_equal.
    apply list_eq. intros c.
    rewrite list_lookup_fmap.
    destruct (decide (Z.of_nat c < n)) as [Hc | Hc].
    + by rewrite lookup_replicate_2, lookup_seqZ_lt by lia.
    + rewrite lookup_seqZ_ge by lia. apply lookup_replicate_None. lia.
  - rewrite lookup_tabulate_ge by lia. apply lookup_replicate_None. lia.
Qed.

Lemma norm_index_inside (len : nat) i :
  0 ≤ i < Z.of_nat len → norm_index len i = Ok (Z.to_nat i).
Proof.
  intros Hi. unfold norm_index.
  destruct (0 <=? i) eqn:E1; [|lia]. destruct (i <? Z.of_nat len) eqn:E2; [done|lia].
Qed.

Lemma norm_index_outside (len : nat) i :
  Z.of_nat len ≤ i ∨ i < - Z.of_nat len → norm_index len i = Raise IndexError.
Proof.
  intros Hi. unfold norm_index.
  destruct (0 <=? i) eqn:E1, (i <? Z.of_nat len) eqn:E2,
    (- Z.of_nat len <=? i) eqn:E3, (i <? 0) eqn:E4; simpl; try done; lia.
Qed.

Lemma setitem_tabulate n f i j v :
  0 ≤ i < n → 0 ≤ j < n →
  setitem (tabulate n f) i j v = Ok (tabulate n (upd f i j v)).
Proof.
  intros Hi Hj. unfold setitem.
  rewrite length_tabulate, norm_index_inside by lia.
  simpl. rewrite lookup_tabulate by lia.
  rewrite length_fmap, length_seqZ, norm_index_inside by lia.
  simpl. f_equal. rewrite Z2Nat.id by lia.
  apply list_eq. intros r.
  destruct (decide (Z.of_nat r < n)) as [Hr | Hr].
  2:{ rewrite lookup_tabulate_ge by lia.
      apply lookup_ge_None. rewrite length_insert, length_tabulate. lia. }
  rewrite lookup_tabulate by done.
  destruct (decide (r = Z.to_nat i)) as [-> | Hne].
  - rewrite list_lookup_insert_eq by (rewrite length_tabulate; lia).
    f_equal. rewrite Z2Nat.id by lia.
    apply list_eq. intros c. rewrite list_lookup_fmap.
    destruct (decide (c = Z.to_nat j)) as [-> | Hcne].
    + rewrite list_lookup_insert_eq by (rewrite length_fmap, length_seqZ; lia).
      rewrite lookup_seqZ_lt by lia. simpl. unfold upd.
      rewrite decide_True by lia. done.
    + rewrite list_lookup_insert_ne by done. rewrite list_lookup_fmap.
      destruct (seqZ 0 n !! c) as [b|] eqn:Eb; [|done]. simpl.
      apply lookup_seqZ in Eb as [-> Hc]. unfold upd.
      rewrite decide_False by lia. done.
  - rewrite list_lookup_insert_ne by done.
    rewrite lookup_tabulate by done. f_equal.
    apply list_fmap_ext. intros c b Hb. unfold upd.
    rewrite decide_False by lia. done.
Qed.

Lemma for_setitem_tabulate (l : list Z) (p q : Z → Z) n v f :
  Forall (λ i, 0 ≤ p i < n ∧ 0 ≤ q i < n) l →
  for_ l (λ i a, setitem a (p i) (q i) v) (tabulate n f)
  = Ok (tabulate n (fold_upd l p q v f)).
Proof.
  intros Hl. revert f. induction Hl as [| i l [Hp Hq] _ IH]; intros f; [done|].
  simpl. rewrite setitem_tabulate by done. simpl. apply IH.
Qed.

Lemma fold_upd_spec (l : list Z) (p q : Z → Z) v f a b :
  fold_upd l p q v f a b
  = if decide (Exists (λ i, a = p i ∧ b = q i) l) then v else f a b.
Proof.
  revert f. induction l as [| i l IH]; intros f; simpl; [done|].
  rewrite IH. unfold upd.
  destruct (decide (Exists (λ i0, a = p i0 ∧ b = q i0) (i :: l))) as [He | He];
    repeat case_decide; try done.
  - apply Exists_cons in He. tauto.
  - exfalso. apply He. by right.
  - exfalso. apply He. by left.
Qed.

Lemma Exists_range (P : Z → Prop) a b :
  Exists P (range a b) ↔ ∃ i, a ≤ i < b ∧ P i.
Proof.
  unfold range. rewrite Exists_exists. setoid_rewrite elem_of_seqZ.
  split; intros (i & H1 & H2); exists i; split; (lia || done).
Qed.

Lemma Forall_range (P : Z → Prop) a b :
  (∀ i, a ≤ i < b → P i) → Forall P (range a b).
Proof.
  intros H. unfold range. apply Forall_seqZ. intros i Hi. apply H. lia.
Qed.
End tabulate_facts.

(** ** Closed forms of the linear and cyclic matrices *)

Lemma result_bind_Ok {A B} (a : A) (f : A → result B) : (Ok a ≫= f) = f a.
Proof. reflexivity. Qed.

Lemma chain_loops (alpha beta n : Z) :
  0 ≤ n →
  (base ← np_zeros n n;
   base ← for_ (range 0 n) (λ i a, setitem a i i alpha) base;
   base ← for_ (range 1 n) (λ i a, setitem a i (i - 1) beta) base;
   for_ (range 1 n) (λ i a, setitem a (i - 1) i beta) base)
  = Ok (tabulate n (linear_entry alpha beta)).
Proof.
  intros Hn. rewrite np_zeros_tabulate, result_bind_Ok by done.
  rewrite (for_setitem_tabulate _ (λ i, i) (λ i, i)), result_bind_Ok
    by (apply Forall_range; lia).
  rewrite (for_setitem_tabulate _ (λ i, i) (λ i, i - 1)), result_bind_Ok
    by (apply Forall_range; lia).
  rewrite (for_setitem_tabulate _ (λ i, i - 1) (λ i, i))
    by (apply Forall_range; lia).
  f_equal. apply tabulate_ext. intros a b Ha Hb.
  rewrite !fold_upd_spec. unfold linear_entry.
  repeat case_decide; try done;
    repeat match goal with
      | H : Exists _ (range _ _) |- _ => apply Exists_range in H as (? & ? & ? & ?)
      | H : ¬ Exists _ (range _ _) |- _ => rewrite Exists_range in H
      end; try lia.
  all: exfalso;
    repeat match goal with H : _ ∨ _ |- _ => destruct H end;
    match goal with
    | H : ¬ (∃ i, _) |- _ => apply H; solve [exists a; lia | exists b; lia]
    end.
Qed.

Lemma linear_fill_tabulate (alpha beta n : Z) :
  0 ≤ n → linear_fill alpha beta n = Ok (tabulate n (linear_entry alpha beta)).
Proof.
  intros Hn. unfold linear_fill.
  pose proof (chain_loops alpha beta n Hn) as H.
  destruct (np_zeros n n) as [m0|]; [|done]. rewrite result_bind_Ok in *.
  destruct (for_ (range 0 n) _ m0) as [m1|]; [|done]. rewrite result_bind_Ok in *.
  destruct (for_ (range 1 n) _ m1) as [m2|]; [|done]. rewrite result_bind_Ok in *.
  rewrite H. done.
Qed.

Lemma cyclic_fill_tabulate (alpha beta n : Z) :
  1 ≤ n → cyclic_fill alpha beta n = Ok (tabulate n (cyclic_entry alpha beta n)).
Proof.
  intros Hn. unfold cyclic_fill.
  pose proof (chain_loops alpha beta n ltac:(lia)) as H.
  destruct (np_zeros n n) as [m0|]; [|done]. rewrite result_bind_Ok in *.
  destruct (for_ (range 0 n) _ m0) as [m1|]; [|done]. rewrite result_bind_Ok in *.
  destruct (for_ (range 1 n) _ m1) as [m2|]; [|done]. rewrite result_bind_Ok in *.
  rewrite H, result_bind_Ok.
  rewrite setitem_tabulate, result_bind_Ok by lia.
  rewrite setitem_tabulate, result_bind_Ok by lia.
  f_equal. apply tabulate_ext. intros a b Ha Hb.
  unfold upd, cyclic_entry. repeat case_decide; try done; lia.
Qed.

Lemma cyclic_fill_zero (alpha beta : Z) : cyclic_fill alpha beta 0 = Raise IndexError.
Proof. reflexivity. Qed.

Lemma fill_negative (alpha beta n : Z) :
  n < 0 →
  linear_fill alpha beta n = Raise ValueError ∧ cyclic_fill alpha beta n = Raise ValueError.
Proof.
  intros Hn. unfold linear_fill, cyclic_fill, np_zeros.
  destruct (n <? 0) eqn:E; [done | lia].
Qed.

(** ** Symmetry and trace of a tabulated matrix *)

Lemma tabulate_symmetric (n : Z) (f : Z → Z → Z) :
  (∀ a b, 0 ≤ a < n → 0 ≤ b < n → f a b = f b a) → symmetric (tabulate n f).
Proof.
  intros Hf i j.
  destruct (decide (Z.of_nat i < n)) as [Hi | Hi], (decide (Z.of_nat j < n)) as [Hj | Hj].
  - rewrite !get_tabulate by done. f_equal. apply Hf; lia.
  - rewrite !get_tabulate_None by lia. done.
  - rewrite !get_tabulate_None by lia. done.
  - rewrite !get_tabulate_None by lia. done.
Qed.

Lemma foldr_add_const (g : nat → Z) (c : Z) (l : list nat) :
  (∀ x, x ∈ l → g x = c) → foldr Z.add 0 (g <$> l) = Z.of_nat (length l) * c.
Proof.
  induction l as [| x l IH]; intros Hg; [done|].
  cbn [fmap list_fmap foldr length]. rewrite IH, Hg.
  - lia.
  - by left.
  - intros y Hy. apply Hg. by right.
Qed.

Lemma trace_constant_diagonal (a : list (list Z)) (c : Z) :
  (∀ i, (i < length a)%nat → get a i i = Some c) →
  trace a = Z.of_nat (length a) * c.
Proof.
  intros Hd. unfold trace.
  rewrite (foldr_add_const _ c).
  - by rewrite length_seq.
  - intros i Hi. apply elem_of_seq in Hi. rewrite Hd by lia. done.
Qed.

Lemma tabulate_trace (n : Z) (f : Z → Z → Z) (c : Z) :
  0 ≤ n → (∀ a, 0 ≤ a < n → f a a = c) → trace (tabulate n f) = n * c.
Proof.
  intros Hn Hf.
  rewrite (trace_constant_diagonal _ c).
  - rewrite length_tabulate, Z2Nat.id by lia. done.
  - intros i Hi. rewrite length_tabulate in Hi.
    rewrite get_tabulate by lia. f_equal. apply Hf. lia.
Qed.

(** ** How the prompt loops run *)

Lemma input_int_accept prompt num rest out n :
  int num = Some n →
  input_int prompt (num :: rest) out = (Ok n, (rest, out ++ int_prompt_events prompt)).
Proof. intros H. simpl. by rewrite H. Qed.

Lemma input_int_retry prompt num rest out :
  int num = None →
  input_int prompt (num :: rest) out = input_int prompt rest (out ++ int_retry_events prompt).
Proof.
  intros H. simpl. rewrite H. unfold int_retry_events, int_prompt_events.
  by rewrite (assoc (++)).
Qed.

(** A successful [ask_int] skipped non-integers and stopped at an integer. *)
Lemma input_int_Ok prompt lines out n lines' out' :
  input_int prompt lines out = (Ok n, (lines', out')) →
  ∃ skipped num,
    lines = skipped ++ num :: lines' ∧ Forall (λ s, int s = None) skipped ∧ int num = Some n.
Proof.
  revert out. induction lines as [| num rest IH]; intros out H; [done|].
  destruct (int num) as [k|] eqn:E.
  - rewrite (input_int_accept _ _ _ _ k) in H by done.
    injection H as -> -> _. by exists [], num.
  - rewrite input_int_retry in H by done.
    destruct (IH _ H) as (skipped & num' & -> & Hs & Hn).
    exists (num :: skipped), num'. split; [done|]. split; [by constructor | done].
Qed.

Lemma ask_int_accept prompt w num rest n :
  stdin w = num :: rest → int num = Some n →
  ask_int prompt w = (Ok n, set_console rest (stdout w ++ int_prompt_events prompt) w).
Proof.
  intros Hw Hn. unfold ask_int. rewrite Hw.
  by rewrite (input_int_accept _ _ _ _ n).
Qed.

Lemma ask_int_retry prompt w num rest :
  stdin w = num :: rest → int num = None →
  ask_int prompt w
  = ask_int prompt (set_console rest (stdout w ++ int_retry_events prompt) w).
Proof.
  intros Hw Hn. unfold ask_int. rewrite Hw.
  rewrite input_int_retry by done. simpl.
  by destruct (input_int prompt rest _) as [r [lines out]].
Qed.

Lemma ask_int_globals prompt w r w' :
  ask_int prompt w = (r, w') →
  alpha w' = alpha w ∧ beta w' = beta w ∧ matrix w' = matrix w ∧ csv w' = csv w.
Proof.
  unfold ask_int. destruct (input_int _ _ _) as [r0 [lines out]].
  intros [= <- <-]. done.
Qed.

Lemma ask_int_Ok prompt w n w' :
  ask_int prompt w = (Ok n, w') →
  ∃ skipped num,
    stdin w = skipped ++ num :: stdin w' ∧ Forall (λ s, int s = None) skipped
    ∧ int num = Some n.
Proof.
  unfold ask_int. destruct (input_int _ _ _) as [r0 [lines out]] eqn:E.
  intros [= -> <-]. simpl. by apply input_int_Ok in E.
Qed.

Lemma IO_bind_eq {A B} (m : IO A) (f : A → IO B) w :
  (m ≫= f) w = match m w with
               | (Ok a, w') => f a w'
               | (Raise e, w') => (Raise e, w')
               end.
Proof. reflexivity. Qed.

(** The builders return exactly what their fill loops compute on the
    number that was read. *)
Lemma linear_run w :
  Huckel_Solver_linear_n_polyene w
  = match ask_int "How many carbons in your linear poly-ene? " w with
    | (Ok n, w') => (linear_fill (alpha w) (beta w) n, w')
    | (Raise e, w') => (Raise e, w')
    end.
Proof. reflexivity. Qed.

Lemma cyclic_run w :
  Huckel_Solver_cyclic_n_polyene w
  = match ask_int "How many carbons in your cyclic poly-ene? " w with
    | (Ok n, w') => (cyclic_fill (alpha w) (beta w) n, w')
    | (Raise e, w') => (Raise e, w')
    end.
Proof. reflexivity. Qed.

Lemma linear_returns w M w' :
  Huckel_Solver_linear_n_polyene w = (Ok M, w') →
  ∃ n, 0 ≤ n ∧ M = tabulate n (linear_entry (alpha w) (beta w)).
Proof.
  rewrite linear_run.
  destruct (ask_int _ w) as [[n|e] w1]; [|done].
  intros [= H _]. exists n.
  destruct (decide (0 ≤ n)) as [Hn | Hn].
  - rewrite linear_fill_tabulate in H by done. by injection H as <-.
  - destruct (fill_negative (alpha w) (beta w) n) as [Hl _]; [lia|]. congruence.
Qed.

Lemma cyclic_returns w M w' :
  Huckel_Solver_cyclic_n_polyene w = (Ok M, w') →
  ∃ n, 1 ≤ n ∧ M = tabulate n (cyclic_entry (alpha w) (beta w) n).
Proof.
  rewrite cyclic_run.
  destruct (ask_int _ w) as [[n|e] w1]; [|done].
  intros [= H _]. exists n.
  destruct (decide (1 ≤ n)) as [Hn | Hn].
  - rewrite cyclic_fill_tabulate in H by done. by injection H as <-.
  - destruct (decide (n = 0)) as [-> | Hz].
    + by rewrite cyclic_fill_zero in H.
    + destruct (fill_negative (alpha w) (beta w) n) as [_ Hc]; [lia|]. congruence.
Qed.

(** ** The Platonic solids *)

Lemma is_solid_name_spec t : is_solid_name t ↔ ∃ s, t = solid_name s.
Proof.
  unfold is_solid_name. split.
  - intros [-> | [-> | [-> | ->]]];
      [by exists Tetrahedron | by exists Octahedron | by exists Cube | by exists Dodecahedron].
  - intros [[] ->]; simpl; tauto.
Qed.

Lemma input_shape_accept s shape rest out :
  lower shape = solid_name s →
  input_shape (shape :: rest) out = (solid_matrix s, (rest, out ++ shape_prompt_events)).
Proof. intros H. simpl. rewrite H. by destruct s. Qed.

Lemma eqb_false_of_ne (a b : string) : a ≠ b → String.eqb a b = false.
Proof. intros H. by apply String.eqb_neq. Qed.

Lemma input_shape_reject shape rest out :
  ¬ is_solid_name (lower shape) →
  input_shape (shape :: rest) out
  = if String.eqb shape "none" then (Raise SystemExit, (rest, out ++ shape_prompt_events))
    else input_shape rest (out ++ shape_prompt_events ++ [Print shape_message]).
Proof.
  intros H. unfold is_solid_name in H. simpl.
  rewrite !eqb_false_of_ne by tauto.
  destruct (String.eqb shape "none"); [done|].
  unfold shape_prompt_events. by rewrite <- (assoc (++)).
Qed.

Lemma input_shape_Ok lines out M lines' out' :
  input_shape lines out = (Ok M, (lines', out')) →
  ∃ skipped shape s,
    lines = skipped ++ shape :: lines' ∧ lower shape = solid_name s ∧ solid_matrix s = Ok M
    ∧ Forall (λ t, ¬ is_solid_name (lower t)) skipped.
Proof.
  revert out. induction lines as [| shape rest IH]; intros out H; [done|].
  destruct (decide (is_solid_name (lower shape))) as [Hs | Hs].
  - apply is_solid_name_spec in Hs as [s Hs].
    rewrite (input_shape_accept s) in H by done.
    injection H as HM -> _. by exists [], shape, s.
  - rewrite input_shape_reject in H by done.
    destruct (String.eqb shape "none"); [done|].
    destruct (IH _ H) as (skipped & shape' & s & -> & Hl & HM & Hsk).
    exists (shape :: skipped), shape', s. split; [done|]. repeat split; try done.
    by constructor.
Qed.

Lemma platonic_accept s w shape rest :
  stdin w = shape :: rest → lower shape = solid_name s →
  Huckel_Solver_Platonic_Solid w
  = (solid_matrix s, set_console rest (stdout w ++ shape_prompt_events) w).
Proof.
  intros Hw Hs. unfold Huckel_Solver_Platonic_Solid. rewrite Hw.
  by rewrite (input_shape_accept s).
Qed.

Lemma platonic_returns w M w' :
  Huckel_Solver_Platonic_Solid w = (Ok M, w') → ∃ s, solid_matrix s = Ok M.
Proof.
  unfold Huckel_Solver_Platonic_Solid.
  destruct (input_shape _ _) as [r [lines out]] eqn:E.
  intros [= -> _]. apply input_shape_Ok in E as (_ & _ & s & _ & _ & H & _). by exists s.
Qed.

(** ** Degree of a vertex *)

Lemma regular_check beta k a :
  Forall (λ p, row_degree beta k p.1 p.2) (zip (seq 0 (length a)) a) → regular beta k a.
Proof.
  intros H i line Hi.
  rewrite Forall_forall in H. apply (H (i, line)).
  apply list_elem_of_lookup. exists i.
  apply lookup_zip_with_Some. exists i, line. split; [done|]. split; [|done].
  apply lookup_seq. split; [done|]. by apply lookup_lt_Some in Hi.
Qed.

Lemma symmetric_check (a : list (list Z)) :
  Forall (λ line, length line = length a) a →
  Forall (λ i, Forall (λ j, get a i j = get a j i) (seq 0 (length a))) (seq 0 (length a)) →
  symmetric a.
Proof.
  intros Hsq Hsym i j.
  assert (Hout : ∀ r c, (length a ≤ r ∨ length a ≤ c)%nat → get a r c = None).
  { intros r c Hrc. unfold get. destruct (a !! r) as [line|] eqn:Er; [|done]. simpl.
    apply lookup_ge_None.
    rewrite Forall_forall in Hsq. rewrite (Hsq line) by (by eapply list_elem_of_lookup_2).
    apply lookup_lt_Some in Er. lia. }
  destruct (decide (i < length a)%nat) as [Hi | Hi], (decide (j < length a)%nat) as [Hj | Hj].
  - rewrite Forall_forall in Hsym.
    specialize (Hsym i ltac:(apply elem_of_seq; lia)).
    rewrite Forall_forall in Hsym. apply Hsym. apply elem_of_seq. lia.
  - rewrite !Hout by lia. done.
  - rewrite !Hout by lia. done.
  - rewrite !Hout by lia. done.
Qed.

Ltac decide_by_computation :=
  match goal with
  | |- ?P => apply (bool_decide_unpack P); vm_compute; exact I
  end.

Lemma solid_matrix_facts (s : solid) :
  ∃ M, solid_matrix s = Ok M
       ∧ square (solid_size s) M
       ∧ regular (-1) (solid_degree s) M
       ∧ symmetric M
       ∧ trace M = Z.of_nat (solid_size s) * 0.
Proof.
  destruct s; eexists; (split; [vm_compute; reflexivity|]);
    (split; [split; [reflexivity | decide_by_computation]|]);
    (split; [apply regular_check; decide_by_computation|]);
    (split; [apply symmetric_check; decide_by_computation | reflexivity]).
Qed.

(** ** The kind prompt of [General_Huckel_Solver] *)

Lemma input_problem_reject w t rest out :
  ¬ is_problem_name (lower t) →
  input_problem w (t :: rest) out
  = if String.eqb t "exit"
    then (Raise SystemExit, set_console rest (out ++ problem_prompt_events) w)
    else input_problem w rest
           (out ++ problem_prompt_events ++ [Print ""; Print problem_message]).
Proof.
  intros H. unfold is_problem_name in H. simpl.
  rewrite !eqb_false_of_ne by tauto.
  destruct (String.eqb t "exit"); [done|].
  unfold problem_prompt_events. by rewrite <- (assoc (++)).
Qed.

Lemma input_problem_accept w t rest out :
  is_problem_name (lower t) →
  input_problem w (t :: rest) out
  = let w1 := set_console rest (out ++ problem_prompt_events) w in
    if String.eqb (lower t) "linear" then Huckel_Solver_linear_n_polyene w1
    else if String.eqb (lower t) "cyclic" then Huckel_Solver_cyclic_n_polyene w1
    else Huckel_Solver_Platonic_Solid w1.
Proof. intros [H | [H | H]]; simpl; by rewrite H. Qed.

(** A matrix leaves the kind prompt only through one of the three builders,
    entered on a recognised answer after the unrecognised ones were skipped. *)
Lemma input_problem_Ok w lines out M w' :
  input_problem w lines out = (Ok M, w') →
  ∃ skipped t rest out1,
    lines = skipped ++ t :: rest
    ∧ Forall (λ t, ¬ is_problem_name (lower t)) skipped
    ∧ let w1 := set_console rest out1 w in
      (lower t = "linear" ∧ Huckel_Solver_linear_n_polyene w1 = (Ok M, w'))
      ∨ (lower t = "cyclic" ∧ Huckel_Solver_cyclic_n_polyene w1 = (Ok M, w'))
      ∨ (lower t = "platonic solid" ∧ Huckel_Solver_Platonic_Solid w1 = (Ok M, w')).
Proof.
  revert out. induction lines as [| t rest IH]; intros out H; [done|].
  destruct (decide (is_problem_name (lower t))) as [Ht | Ht].
  - rewrite input_problem_accept in H by done.
    exists [], t, rest, (out ++ problem_prompt_events). split; [done|]. split; [done|].
    destruct Ht as [Ht | [Ht | Ht]]; rewrite Ht in H; simpl in H; rewrite Ht; auto.
  - rewrite input_problem_reject in H by done.
    destruct (String.eqb t "exit"); [done|].
    destruct (IH _ H) as (skipped & t' & rest' & out1 & -> & Hsk & Hrun).
    exists (t :: skipped), t', rest', out1. split; [done|]. split; [by constructor | done].
Qed.

Lemma input_problem_built w lines out M w' :
  input_problem w lines out = (Ok M, w') →
  ∃ k, built_as k (alpha w) (beta w) M.
Proof.
  intros H. apply input_problem_Ok in H as (skipped & t & rest & out1 & _ & _ & Hrun).
  simpl in Hrun. destruct Hrun as [[_ Hr] | [[_ Hr] | [_ Hr]]].
  - exists Linear. rewrite linear_run in Hr.
    destruct (ask_int _ _) as [[n|e] w1]; [|done]. injection Hr as Hr _. by exists n.
  - exists Cyclic. rewrite cyclic_run in Hr.
    destruct (ask_int _ _) as [[n|e] w1]; [|done]. injection Hr as Hr _. by exists n.
  - apply platonic_returns in Hr as [s Hs]. by exists (Platonic s).
Qed.

(** ** Symmetry and trace of what each kind builds *)

Lemma linear_entry_sym alpha beta a b : linear_entry alpha beta a b = linear_entry alpha beta b a.
Proof. unfold linear_entry. repeat case_decide; try done; lia. Qed.

Lemma cyclic_entry_sym alpha beta n a b :
  cyclic_entry alpha beta n a b = cyclic_entry alpha beta n b a.
Proof.
  unfold cyclic_entry. rewrite (linear_entry_sym alpha beta a b).
  repeat case_decide; try done; lia.
Qed.

Lemma built_as_symmetric k alpha beta M : built_as k alpha beta M → symmetric M.
Proof.
  destruct k as [| | s]; simpl.
  - intros [n H]. destruct (decide (0 ≤ n)) as [Hn | Hn].
    + rewrite linear_fill_tabulate in H by done. injection H as <-.
      apply tabulate_symmetric. intros. apply linear_entry_sym.
    + destruct (fill_negative alpha beta n) as [Hl _]; [lia|]. congruence.
  - intros [n H]. destruct (decide (1 ≤ n)) as [Hn | Hn].
    + rewrite cyclic_fill_tabulate in H by done. injection H as <-.
      apply tabulate_symmetric. intros. apply cyclic_entry_sym.
    + destruct (decide (n = 0)) as [-> | Hz]; [by rewrite cyclic_fill_zero in H|].
      destruct (fill_negative alpha beta n) as [_ Hc]; [lia|]. congruence.
  - intros H. destruct (solid_matrix_facts s) as (M' & HM' & _ & _ & Hsym & _).
    congruence.
Qed.

Lemma linear_trace alpha beta n :
  0 ≤ n → trace (tabulate n (linear_entry alpha beta)) = n * alpha.
Proof.
  intros Hn. apply tabulate_trace; [done|]. intros a Ha.
  unfold linear_entry. repeat case_decide; try done; lia.
Qed.

Lemma cyclic_trace alpha beta n :
  2 ≤ n → trace (tabulate n (cyclic_entry alpha beta n)) = n * alpha.
Proof.
  intros Hn. apply tabulate_trace; [lia|]. intros a Ha.
  unfold cyclic_entry, linear_entry. repeat case_decide; try done; lia.
Qed.

(** Away from the one-atom ring every builder returns a matrix whose trace
    is its size times the [alpha] it uses. *)
Lemma built_as_trace k alpha beta M :
  built_as k alpha beta M → (k = Cyclic → length M ≠ 1%nat) →
  trace M = Z.of_nat (length M) * (if k is Platonic _ then 0 else alpha).
Proof.
  destruct k as [| | s]; simpl.
  - intros [n H] _. destruct (decide (0 ≤ n)) as [Hn | Hn].
    + rewrite linear_fill_tabulate in H by done. injection H as <-.
      rewrite linear_trace, length_tabulate by done. by rewrite Z2Nat.id by lia.
    + destruct (fill_negative alpha beta n) as [Hl _]; [lia|]. congruence.
  - intros [n H] Hlen. destruct (decide (1 ≤ n)) as [Hn | Hn].
    + rewrite cyclic_fill_tabulate in H by done. injection H as <-.
      rewrite length_tabulate in Hlen. specialize (Hlen eq_refl).
      rewrite cyclic_trace, length_tabulate by lia. by rewrite Z2Nat.id by lia.
    + destruct (decide (n = 0)) as [-> | Hz]; [by rewrite cyclic_fill_zero in H|].
      destruct (fill_negative alpha beta n) as [_ Hc]; [lia|]. congruence.
  - intros H _. destruct (solid_matrix_facts s) as (M' & HM' & [Hlen _] & _ & _ & Htr).
    assert (M' = M) as -> by congruence. by rewrite Hlen.
Qed.

(** ** The degeneracy table *)

Lemma Degeneracy_count_eq eigvals set_ w :
  Degeneracy_count eigvals set_ w
  = (Ok (header :: (level_row <$> levels_of set_ (merge_sort Qle (eigvals (matrix w))))), w).
Proof. reflexivity. Qed.

#[global] Instance level_le_total : Total level_le.
Proof. intros [x1 c1] [x2 c2]. unfold level_le. simpl. lia. Qed.

#[global] Instance level_le_trans : Transitive level_le.
Proof. intros [x1 c1] [x2 c2] [x3 c3]. unfold level_le. simpl. lia. Qed.

#[global] Instance level_le_antisymm : AntiSymm (=) level_le.
Proof.
  intros [x1 c1] [x2 c2]. unfold level_le. simpl. intros H1 H2.
  f_equal; lia.
Qed.

Lemma set_spec_Permutation set1 set2 l :
  set_spec set1 → set_spec set2 → set1 l ≡ₚ set2 l.
Proof.
  intros H1 H2. destruct (H1 l) as [Hn1 He1], (H2 l) as [Hn2 He2].
  apply NoDup_Permutation; [done | done |].
  intros x. by rewrite He1, He2.
Qed.

(** The table does not depend on the order in which the set is iterated. *)
Lemma levels_of_set_independent set1 set2 eval_list :
  set_spec set1 → set_spec set2 → levels_of set1 eval_list = levels_of set2 eval_list.
Proof.
  intros H1 H2. unfold levels_of.
  apply (Sorted_unique level_le); [apply Sorted_merge_sort, _ .. |].
  rewrite !merge_sort_Permutation.
  apply fmap_Permutation, set_spec_Permutation; done.
Qed.

Lemma levels_of_keys set_ eval_list :
  (levels_of set_ eval_list).*1 ≡ₚ set_ (round3 <$> eval_list).
Proof.
  unfold levels_of. rewrite merge_sort_Permutation.
  rewrite <- list_fmap_compose. by rewrite list_fmap_id.
Qed.

Lemma StronglySorted_le_lt (l : list Z) :
  StronglySorted Z.le l → NoDup l → StronglySorted Z.lt l.
Proof.
  induction 1 as [| x l Hs IH Hx]; intros Hnd; [constructor|].
  apply NoDup_cons in Hnd as [Hnin Hnd].
  constructor; [by apply IH|].
  rewrite Forall_forall in Hx |- *. intros y Hy.
  specialize (Hx y Hy). assert (x ≠ y) by (intros ->; done). lia.
Qed.

Lemma levels_of_sorted set_ eval_list :
  set_spec set_ → StronglySorted Z.lt (levels_of set_ eval_list).*1.
Proof.
  intros Hset. apply StronglySorted_le_lt.
  - apply (StronglySorted_fmap fst level_le Z.le).
    + intros [x1 c1] [x2 c2]. unfold level_le. simpl. lia.
    + unfold levels_of. apply StronglySorted_merge_sort; apply _.
  - rewrite levels_of_keys. apply Hset.
Qed.

Lemma foldr_add_Permutation (l1 l2 : list Z) :
  l1 ≡ₚ l2 → foldr Z.add 0 l1 = foldr Z.add 0 l2.
Proof. induction 1; simpl; lia. Qed.

(** Counting every element of [l] under each key of a duplicate-free list
    that covers [l] counts [l] once. *)
Lemma count_occ_total (ks l : list Z) :
  NoDup ks → (∀ x, x ∈ l → x ∈ ks) →
  foldr Z.add 0 ((λ x, Z.of_nat (count_occ Z.eq_dec l x)) <$> ks) = Z.of_nat (length l).
Proof.
  intros Hnd. induction l as [| y l IH]; intros Hin.
  - clear. induction ks as [| k ks IHk]; [done|].
    cbn [fmap list_fmap foldr]. rewrite IHk. done.
  - assert (Hone : ∀ ks', NoDup ks' →
      foldr Z.add 0 ((λ x, Z.of_nat (count_occ Z.eq_dec (y :: l) x)) <$> ks')
      = (if decide (y ∈ ks') then 1 else 0)
        + foldr Z.add 0 ((λ x, Z.of_nat (count_occ Z.eq_dec l x)) <$> ks')).
    { clear. induction ks' as [| k ks' IHk]; intros Hnd; [done|].
      apply NoDup_cons in Hnd as [Hnin Hnd].
      cbn [fmap list_fmap foldr]. rewrite IHk by done.
      cbn [count_occ]. destruct (Z.eq_dec y k) as [-> | Hne];
        repeat case_decide; try lia;
        repeat match goal with
          | H : _ ∈ _ :: _ |- _ => apply elem_of_cons in H as [? | ?]
          | H : _ ∉ _ :: _ |- _ => rewrite elem_of_cons in H
          end; try done; tauto. }
    rewrite Hone by done. rewrite decide_True by (apply Hin; by left).
    rewrite IH by (intros x Hx; apply Hin; by right).
    simpl length. lia.
Qed.

Lemma levels_of_counts set_ eval_list :
  set_spec set_ →
  foldr Z.add 0 (levels_of set_ eval_list).*2 = Z.of_nat (length eval_list).
Proof.
  intros Hset. destruct (Hset (round3 <$> eval_list)) as [Hnd Hel].
  unfold levels_of.
  rewrite (foldr_add_Permutation _
             ((λ x, Z.of_nat (count_occ Z.eq_dec (round3 <$> eval_list) x))
                <$> set_ (round3 <$> eval_list))).
  - rewrite count_occ_total; [by rewrite length_fmap | done |].
    intros x Hx. by apply Hel.
  - rewrite merge_sort_Permutation. by rewrite <- list_fmap_compose.
Qed.

(** Each row of the table is a rounded energy with its number of
    occurrences. *)
Lemma levels_of_elem set_ eval_list x c :
  set_spec set_ →
  (x, c) ∈ levels_of set_ eval_list
  ↔ x ∈ round3 <$> eval_list
    ∧ c = Z.of_nat (count_occ Z.eq_dec (round3 <$> eval_list) x).
Proof.
  intros Hset. destruct (Hset (round3 <$> eval_list)) as [_ Hel].
  unfold levels_of. rewrite merge_sort_Permutation.
  split.
  - intros H. apply list_elem_of_fmap in H as (y & [= -> ->] & Hy).
    split; [by apply Hel | done].
  - intros [Hx ->]. apply list_elem_of_fmap. exists x. split; [done | by apply Hel].
Qed.

(** ** The run of [General_Huckel_Solver] *)

Lemma General_run eigvals set_ w :
  General_Huckel_Solver eigvals set_ w
  = match input_problem w (stdin w) (stdout w) with
    | (Ok m, w1) => (Ok tt, report_world eigvals set_ m w1)
    | (Raise e, w1) => (Raise e, w1)
    end.
Proof.
  unfold General_Huckel_Solver. rewrite IO_bind_eq.
  destruct (input_problem w (stdin w) (stdout w)) as [[m|e] w1]; [|done].
  unfold report_world, Degeneracy_count, get_evals, print, write_rows.
  unfold mbind, IO_bind, mret, IO_ret, emit, set_csv, set_console, set_matrix.
  cbn. do 2 f_equal. by rewrite <- !(assoc (++)).
Qed.

(** ** Eigenvalues, for the worked example *)

Lemma eigenvalues_of_two_chain (lam : Q) :
  eigenvalue [[0; -1]; [-1; 0]] lam ↔ (lam == 1 ∨ lam == -1)%Q.
Proof.
  split.
  - intros (v & Hlen & Hnz & Heq).
    destruct v as [| x [| y [| z v]]]; try done.
    unfold mat_vec, dot in Heq. cbn in Heq.
    apply Forall2_cons in Heq as [H1 Heq]. apply Forall2_cons in Heq as [H2 _].
    assert (E1 : (lam * x == - y)%Q) by (rewrite <- H1; unfold inject_Z; ring).
    assert (E2 : (lam * y == - x)%Q) by (rewrite <- H2; unfold inject_Z; ring).
    assert (Hx : ((lam * lam - 1) * x == 0)%Q).
    { transitivity (lam * (lam * x) - x)%Q; [ring|]. rewrite E1.
      transitivity (- (lam * y) - x)%Q; [ring|]. rewrite E2. ring. }
    assert (Hy : ((lam * lam - 1) * y == 0)%Q).
    { transitivity (lam * (lam * y) - y)%Q; [ring|]. rewrite E2.
      transitivity (- (lam * x) - y)%Q; [ring|]. rewrite E1. ring. }
    assert (Hsq : (lam * lam - 1 == 0)%Q).
    { apply Exists_cons in Hnz as [Hnz | Hnz].
      - apply Qmult_integral in Hx as [Hx | Hx]; [done | by destruct Hnz].
      - apply Exists_cons in Hnz as [Hnz | Hnz]; [|by apply Exists_nil in Hnz].
        apply Qmult_integral in Hy as [Hy | Hy]; [done | by destruct Hnz]. }
    assert (Hfac : ((lam - 1) * (lam + 1) == 0)%Q).
    { rewrite <- Hsq. ring. }
    apply Qmult_integral in Hfac as [Hf | Hf]; [left | right].
    + transitivity (lam - 1 + 1)%Q; [ring|]. rewrite Hf. reflexivity.
    + transitivity (lam + 1 - 1)%Q; [ring|]. rewrite Hf. reflexivity.
  - intros [H | H].
    + exists [1%Q; (-1)%Q]. split; [done|]. split; [by left|].
      unfold mat_vec, dot. cbn. repeat constructor; rewrite H; reflexivity.
    + exists [1%Q; 1%Q]. split; [done|]. split; [by left|].
      unfold mat_vec, dot. cbn. repeat constructor; rewrite H; reflexivity.
Qed.

(** * Verified properties *)

(** ** Trace *)

(** Every matrix that leaves the kind prompt has trace [n * alpha], [n] its
    size and [alpha] the value its builder uses, unless it is the one-atom
    ring. *)
Lemma built_matrix_trace w lines out M w' :
  input_problem w lines out = (Ok M, w') →
  ∃ k, built_as k (alpha w) (beta w) M
       ∧ ((k = Cyclic → length M ≠ 1%nat) →
          trace M = Z.of_nat (length M) * (if k is Platonic _ then 0 else alpha w)).
Proof.
  intros H. apply input_problem_built in H as [k Hk].
  exists k. split; [done|]. by apply (built_as_trace k (alpha w) (beta w)).
Qed.

(** C1. The trace of a built matrix is meant to be [n * alpha]. The cyclic
    builder breaks this at one atom: run from the module defaults on the
    answer 1 it returns the 1x1 matrix [[-1]], whose trace is -1 and not
    1 * alpha = 0. *)
Theorem cyclic_one_atom_trace_defect :
  ∃ M w',
    Huckel_Solver_cyclic_n_polyene (module_init ["1"]) = (Ok M, w')
    ∧ length M = 1%nat
    ∧ trace M = -1
    ∧ trace M ≠ Z.of_nat (length M) * alpha (module_init ["1"]).
Proof. eexists _, _. split; [reflexivity|]. by vm_compute. Qed.

(** ** Vertex degrees of the Platonic solids *)

(** C2. The matrix built for a Platonic solid is square of the solid's
    size, and every row has, off the diagonal, exactly [solid_degree]
    entries equal to beta = -1 (3 for the tetrahedron, 4 for the
    octahedron, 3 for the cube, 3 for the dodecahedron) and zeros
    elsewhere. *)
Theorem platonic_vertex_degrees (s : solid) (w : world) (shape : string) (rest : list string) :
  stdin w = shape :: rest →
  lower shape = solid_name s →
  ∃ M w',
    Huckel_Solver_Platonic_Solid w = (Ok M, w')
    ∧ square (solid_size s) M
    ∧ regular (-1) (solid_degree s) M.
Proof.
  intros Hw Hs. destruct (solid_matrix_facts s) as (M & HM & Hsq & Hreg & _).
  exists M, (set_console rest (stdout w ++ shape_prompt_events) w).
  rewrite (platonic_accept s w shape rest) by done. by rewrite HM.
Qed.

Lemma platonic_vertex_degrees_witness :
  stdin (module_init ["Dodecahedron"]) = ["Dodecahedron"]
  ∧ lower "Dodecahedron" = solid_name Dodecahedron
  ∧ ∃ M w',
      Huckel_Solver_Platonic_Solid (module_init ["Dodecahedron"]) = (Ok M, w')
      ∧ square (solid_size Dodecahedron) M
      ∧ regular (-1) (solid_degree Dodecahedron) M.
Proof.
  split; [reflexivity|]. split; [reflexivity|].
  apply (platonic_vertex_degrees Dodecahedron (module_init ["Dodecahedron"])
           "Dodecahedron" []); reflexivity.
Defined.

(** ** Symmetry *)

Lemma builder_built_as w M w' :
  Huckel_Solver_linear_n_polyene w = (Ok M, w')
  ∨ Huckel_Solver_cyclic_n_polyene w = (Ok M, w')
  ∨ Huckel_Solver_Platonic_Solid w = (Ok M, w') →
  ∃ k, built_as k (alpha w) (beta w) M.
Proof.
  intros [H | [H | H]].
  - exists Linear. rewrite linear_run in H.
    destruct (ask_int _ _) as [[n|e] w1]; [|done]. injection H as H _. by exists n.
  - exists Cyclic. rewrite cyclic_run in H.
    destruct (ask_int _ _) as [[n|e] w1]; [|done]. injection H as H _. by exists n.
  - apply platonic_returns in H as [s Hs]. by exists (Platonic s).
Qed.

(** C3. Whatever matrix a topology builder returns, for any state of the
    module and any console input, is symmetric: M[i][j] = M[j][i] for all
    i and j. *)
Theorem built_matrix_symmetric (w : world) (M : list (list Z)) (w' : world) :
  Huckel_Solver_linear_n_polyene w = (Ok M, w')
  ∨ Huckel_Solver_cyclic_n_polyene w = (Ok M, w')
  ∨ Huckel_Solver_Platonic_Solid w = (Ok M, w') →
  symmetric M.
Proof.
  intros H. apply builder_built_as in H as [k Hk]. by eapply built_as_symmetric.
Qed.

Lemma built_matrix_symmetric_witness :
  (Huckel_Solver_linear_n_polyene four_ring_input = (Ok four_ring_matrix, four_ring_output)
   ∨ Huckel_Solver_cyclic_n_polyene four_ring_input = (Ok four_ring_matrix, four_ring_output)
   ∨ Huckel_Solver_Platonic_Solid four_ring_input = (Ok four_ring_matrix, four_ring_output))
  ∧ symmetric four_ring_matrix.
Proof.
  assert (H : Huckel_Solver_linear_n_polyene four_ring_input
                = (Ok four_ring_matrix, four_ring_output)
              ∨ Huckel_Solver_cyclic_n_polyene four_ring_input
                = (Ok four_ring_matrix, four_ring_output)
              ∨ Huckel_Solver_Platonic_Solid four_ring_input
                = (Ok four_ring_matrix, four_ring_output))
    by (right; left; reflexivity).
  split; [exact H|].
  exact (built_matrix_symmetric four_ring_input four_ring_matrix four_ring_output H).
Defined.

(** ** The one-atom ring *)

(** C4. For the cyclic topology with n = 1 the wraparound assignment to
    position (0, n - 1) = (0, 0) overwrites the diagonal: the matrix is
    [[beta]], its only diagonal entry is beta, and its trace is beta, which
    differs from 1 * alpha whenever beta differs from alpha. *)
Theorem cyclic_one_atom_matrix (w : world) (num : string) (rest : list string) :
  stdin w = num :: rest →
  int num = Some 1 →
  ∃ w',
    Huckel_Solver_cyclic_n_polyene w = (Ok [[beta w]], w')
    ∧ get [[beta w]] 0 0 = Some (beta w)
    ∧ trace [[beta w]] = beta w
    ∧ (beta w ≠ alpha w → trace [[beta w]] ≠ 1 * alpha w).
Proof.
  intros Hw Hn. eexists. rewrite cyclic_run.
  rewrite (ask_int_accept _ w num rest 1) by done.
  split; [reflexivity|]. split; [reflexivity|].
  assert (Ht : trace [[beta w]] = beta w) by (unfold trace; cbn; lia).
  split; [done|]. rewrite Ht. lia.
Qed.

Lemma cyclic_one_atom_matrix_witness :
  stdin (module_init ["1"]) = ["1"]
  ∧ int "1" = Some 1
  ∧ ∃ w',
      Huckel_Solver_cyclic_n_polyene (module_init ["1"]) = (Ok [[-1]], w')
      ∧ get [[-1]] 0 0 = Some (-1)
      ∧ trace [[-1]] = -1
      ∧ (-1 ≠ 0 → trace [[-1]] ≠ 1 * 0).
Proof.
  split; [reflexivity|]. split; [reflexivity|].
  apply (cyclic_one_atom_matrix (module_init ["1"]) "1" []); reflexivity.
Defined.

(** ** Sizes that are not positive integers *)

(** C5, refuted as stated: the answer 0 is an integer that is not positive,
    and the linear builder neither fails nor asks again; it returns the
    empty 0x0 matrix. *)
Lemma linear_zero_builds_matrix :
  int "0" = Some 0
  ∧ ¬ 0 < 0
  ∧ Huckel_Solver_linear_n_polyene (module_init ["0"])
    = (Ok [], World [] 0 (-1) [] (int_prompt_events linear_prompt) None).
Proof. split; [reflexivity|]. split; [lia | reflexivity]. Qed.

(** C5, amended. On the answer [num] to the size prompt:
    - a non-integer is refused: the builder prints its message and carries
      on with the next line, having built nothing;
    - a negative integer makes both builders fail with numpy's
      [ValueError], no matrix being built;
    - zero makes the cyclic builder fail with an [IndexError], while the
      linear builder returns the empty matrix;
    - a positive integer n yields an n-row matrix from both builders. *)
Theorem size_answer_handling (w : world) (num : string) (rest : list string) :
  stdin w = num :: rest →
  match int num with
  | None =>
      Huckel_Solver_linear_n_polyene w
      = Huckel_Solver_linear_n_polyene
          (set_console rest (stdout w ++ int_retry_events linear_prompt) w)
      ∧ Huckel_Solver_cyclic_n_polyene w
        = Huckel_Solver_cyclic_n_polyene
            (set_console rest (stdout w ++ int_retry_events cyclic_prompt) w)
  | Some n =>
      if n <? 0 then
        (Huckel_Solver_linear_n_polyene w).1 = Raise ValueError
        ∧ (Huckel_Solver_cyclic_n_polyene w).1 = Raise ValueError
      else if n =? 0 then
        (Huckel_Solver_linear_n_polyene w).1 = Ok []
        ∧ (Huckel_Solver_cyclic_n_polyene w).1 = Raise IndexError
      else
        ∃ M1 M2,
          (Huckel_Solver_linear_n_polyene w).1 = Ok M1
          ∧ (Huckel_Solver_cyclic_n_polyene w).1 = Ok M2
          ∧ length M1 = Z.to_nat n ∧ length M2 = Z.to_nat n
  end.
Proof.
  intros Hw. destruct (int num) as [n|] eqn:En.
  - rewrite linear_run, cyclic_run.
    rewrite !(ask_int_accept _ w num rest n) by done. simpl.
    destruct (n <? 0) eqn:Eneg.
    + apply fill_negative. lia.
    + destruct (n =? 0) eqn:Ez.
      * assert (n = 0) as -> by lia. done.
      * exists (tabulate n (linear_entry (alpha w) (beta w))),
               (tabulate n (cyclic_entry (alpha w) (beta w) n)).
        rewrite linear_fill_tabulate, cyclic_fill_tabulate by lia.
        by rewrite !length_tabulate.
  - rewrite !linear_run, !cyclic_run.
    rewrite !(ask_int_retry _ w num rest) by done.
    done.
Qed.

Lemma size_answer_handling_witness :
  stdin (module_init ["-3"]) = ["-3"]
  ∧ (Huckel_Solver_linear_n_polyene (module_init ["-3"])).1 = Raise ValueError
  ∧ (Huckel_Solver_cyclic_n_polyene (module_init ["-3"])).1 = Raise ValueError.
Proof.
  split; [reflexivity|].
  exact (size_answer_handling (module_init ["-3"]) "-3" [] eq_refl).
Defined.

(** ** Unrecognised kinds *)

Lemma input_shape_elem lines out M lines' out' :
  input_shape lines out = (Ok M, (lines', out')) →
  ∃ shape s, shape ∈ lines ∧ lower shape = solid_name s ∧ solid_matrix s = Ok M.
Proof.
  intros H. apply input_shape_Ok in H as (skipped & shape & s & -> & Hl & HM & _).
  exists shape, s. split; [|done]. apply elem_of_app. right. by left.
Qed.

(** C8. An answer that names no kind is refused at both prompts: unless it
    is the exit word, the message is printed and the next line is read, so
    no builder runs on it. A matrix is built only on an answer that, in
    lower case, is linear, cyclic, tetrahedron, octahedron, cube or
    dodecahedron (a solid being asked for after the answer platonic
    solid). *)
Theorem unknown_kind_rejected :
  (∀ w t rest out,
     ¬ is_problem_name (lower t) →
     input_problem w (t :: rest) out
     = if String.eqb t "exit"
       then (Raise SystemExit, set_console rest (out ++ problem_prompt_events) w)
       else input_problem w rest
              (out ++ problem_prompt_events ++ [Print ""; Print problem_message]))
  ∧ (∀ shape rest out,
       ¬ is_solid_name (lower shape) →
       input_shape (shape :: rest) out
       = if String.eqb shape "none"
         then (Raise SystemExit, (rest, out ++ shape_prompt_events))
         else input_shape rest (out ++ shape_prompt_events ++ [Print shape_message]))
  ∧ (∀ w lines out M w',
       input_problem w lines out = (Ok M, w') →
       ∃ k t, t ∈ lines ∧ lower t = kind_name k ∧ built_as k (alpha w) (beta w) M).
Proof.
  split; [exact input_problem_reject|]. split; [exact input_shape_reject|].
  intros w lines out M w' H.
  apply input_problem_Ok in H as (skipped & t & rest & out1 & -> & _ & Hrun).
  simpl in Hrun. destruct Hrun as [[Ht Hr] | [[Ht Hr] | [Ht Hr]]].
  - exists Linear, t. split; [apply elem_of_app; right; by left|]. split; [done|].
    rewrite linear_run in Hr.
    destruct (ask_int _ _) as [[n|e] w1]; [|done]. injection Hr as Hr _. by exists n.
  - exists Cyclic, t. split; [apply elem_of_app; right; by left|]. split; [done|].
    rewrite cyclic_run in Hr.
    destruct (ask_int _ _) as [[n|e] w1]; [|done]. injection Hr as Hr _. by exists n.
  - unfold Huckel_Solver_Platonic_Solid in Hr. simpl in Hr.
    destruct (input_shape rest out1) as [r [lines' out']] eqn:E.
    injection Hr as -> _.
    apply input_shape_elem in E as (shape & s & Hin & Hl & HM).
    exists (Platonic s), shape. split; [|done].
    apply elem_of_app. right. by right.
Qed.

Lemma unknown_kind_rejected_witness :
  (¬ is_problem_name (lower "benzene")
   ∧ input_problem (module_init []) ["benzene"; "Cyclic"; "3"] []
     = input_problem (module_init []) ["Cyclic"; "3"]
         ([] ++ problem_prompt_events ++ [Print ""; Print problem_message]))
  ∧ (¬ is_solid_name (lower "sphere")
     ∧ input_shape ["sphere"; "cube"] []
       = input_shape ["cube"] ([] ++ shape_prompt_events ++ [Print shape_message]))
  ∧ (∃ M w',
       input_problem (module_init []) ["benzene"; "Cyclic"; "3"] [] = (Ok M, w')
       ∧ ∃ k t, t ∈ ["benzene"; "Cyclic"; "3"] ∧ lower t = kind_name k
                ∧ built_as k 0 (-1) M).
Proof.
  assert (H1 : ¬ is_problem_name (lower "benzene")).
  { unfold is_problem_name. intros [H | [H | H]]; discriminate H. }
  assert (H2 : ¬ is_solid_name (lower "sphere")).
  { unfold is_solid_name. intros [H | [H | [H | H]]]; discriminate H. }
  split; [split; [exact H1|]|split; [split; [exact H2|]|]].
  - exact (proj1 unknown_kind_rejected (module_init []) "benzene" ["Cyclic"; "3"] [] H1).
  - exact (proj1 (proj2 unknown_kind_rejected) "sphere" ["cube"] [] H2).
  - eexists _, _. split; [reflexivity|].
    exact (proj2 (proj2 unknown_kind_rejected) (module_init [])
             ["benzene"; "Cyclic"; "3"] [] _ _ eq_refl).
Defined.

(** ** Module-level and local parameters *)

Lemma tabulate_inj n f g :
  tabulate n f = tabulate n g → ∀ a b, 0 ≤ a < n → 0 ≤ b < n → f a b = g a b.
Proof.
  intros H a b Ha Hb.
  assert (Hg : get (tabulate n f) (Z.to_nat a) (Z.to_nat b)
               = get (tabulate n g) (Z.to_nat a) (Z.to_nat b)) by (by rewrite H).
  rewrite !get_tabulate in Hg by lia. rewrite !Z2Nat.id in Hg by lia. by injection Hg.
Qed.

Lemma linear_fill_params n a1 b1 a2 b2 :
  1 ≤ n →
  linear_fill a1 b1 n = linear_fill a2 b2 n ↔ a1 = a2 ∧ (n = 1 ∨ b1 = b2).
Proof.
  intros Hn. rewrite !linear_fill_tabulate by lia. split.
  - intros [= H]. pose proof (tabulate_inj _ _ _ H) as Hp. split.
    + specialize (Hp 0 0 ltac:(lia) ltac:(lia)). unfold linear_entry in Hp.
      by repeat case_decide; try lia.
    + destruct (decide (n = 1)) as [| Hn1]; [by left | right].
      specialize (Hp 0 1 ltac:(lia) ltac:(lia)). unfold linear_entry in Hp.
      by repeat case_decide; try lia.
  - intros [-> Hb]. f_equal. apply tabulate_ext. intros a b Ha Hb'.
    unfold linear_entry. repeat case_decide; try done. destruct Hb; [lia | done].
Qed.

Lemma cyclic_fill_params n a1 b1 a2 b2 :
  1 ≤ n →
  cyclic_fill a1 b1 n = cyclic_fill a2 b2 n ↔ b1 = b2 ∧ (n = 1 ∨ a1 = a2).
Proof.
  intros Hn. rewrite !cyclic_fill_tabulate by lia. split.
  - intros [= H]. pose proof (tabulate_inj _ _ _ H) as Hp. split.
    + specialize (Hp 0 (n - 1) ltac:(lia) ltac:(lia)). unfold cyclic_entry in Hp.
      by repeat case_decide; try lia.
    + destruct (decide (n = 1)) as [| Hn1]; [by left | right].
      specialize (Hp 1 1 ltac:(lia) ltac:(lia)).
      unfold cyclic_entry, linear_entry in Hp.
      by repeat case_decide; try lia.
  - intros [-> Ha']. f_equal. apply tabulate_ext. intros a b Ha Hb.
    unfold cyclic_entry, linear_entry. repeat case_decide; try done.
    destruct Ha'; [lia | done].
Qed.

(** C9. [Huckel_Solver_Platonic_Solid] uses its own alpha = 0 and
    beta = -1: run on the same input under any two settings of the module's
    alpha and beta it returns the same result. The linear and cyclic
    builders read the module's values: for a size n >= 1 two settings give
    the same linear matrix only if the alphas agree and, beyond one atom,
    the betas too; and the same cyclic matrix only if the betas agree and,
    beyond one atom, the alphas too. *)
Theorem platonic_ignores_module_parameters
    (w1 w2 : world) (num : string) (rest : list string) (n : Z) :
  stdin w1 = num :: rest →
  stdin w2 = num :: rest →
  int num = Some n →
  1 ≤ n →
  ((Huckel_Solver_linear_n_polyene w1).1 = (Huckel_Solver_linear_n_polyene w2).1
   ↔ alpha w1 = alpha w2 ∧ (n = 1 ∨ beta w1 = beta w2))
  ∧ ((Huckel_Solver_cyclic_n_polyene w1).1 = (Huckel_Solver_cyclic_n_polyene w2).1
     ↔ beta w1 = beta w2 ∧ (n = 1 ∨ alpha w1 = alpha w2))
  ∧ ∀ v1 v2, stdin v1 = stdin v2 →
             (Huckel_Solver_Platonic_Solid v1).1 = (Huckel_Solver_Platonic_Solid v2).1.
Proof.
  intros H1 H2 Hn Hpos.
  rewrite !linear_run, !cyclic_run.
  rewrite !(ask_int_accept _ w1 num rest n), !(ask_int_accept _ w2 num rest n) by done.
  simpl. split; [by apply linear_fill_params|]. split; [by apply cyclic_fill_params|].
  intros v1 v2 Hv. unfold Huckel_Solver_Platonic_Solid. rewrite Hv.
  generalize (stdout v1), (stdout v2). generalize (stdin v2). clear.
  intros lines. induction lines as [| shape lines IH]; intros out1 out2; [done|].
  simpl. repeat (destruct (String.eqb _ _); [done|]).
  specialize (IH (out1 ++ [Print ""; Prompt "What kind of shape do you have? "]
                    ++ [Print shape_message])
                 (out2 ++ [Print ""; Prompt "What kind of shape do you have? "]
                    ++ [Print shape_message])).
  rewrite !(assoc (++)) in IH. exact IH.
Qed.

Lemma platonic_ignores_module_parameters_witness :
  (stdin (module_init ["3"]) = ["3"]
   ∧ stdin (altered_module ["3"]) = ["3"]
   ∧ int "3" = Some 3
   ∧ 1 ≤ 3)
  ∧ (Huckel_Solver_linear_n_polyene (module_init ["3"])).1
    ≠ (Huckel_Solver_linear_n_polyene (altered_module ["3"])).1
  ∧ (Huckel_Solver_Platonic_Solid (module_init ["cube"])).1
    = (Huckel_Solver_Platonic_Solid (altered_module ["cube"])).1.
Proof.
  pose proof (platonic_ignores_module_parameters
                (module_init ["3"]) (altered_module ["3"]) "3" [] 3
                eq_refl eq_refl eq_refl ltac:(lia)) as (Hlin & _ & Hsolid).
  split; [repeat split; lia|]. split.
  - intros Heq. apply Hlin in Heq as [Ha _]. discriminate Ha.
  - exact (Hsolid (module_init ["cube"]) (altered_module ["cube"]) eq_refl).
Defined.

(** ** The degeneracy reduction *)

Lemma remove_dups_set_spec : set_spec remove_dups.
Proof.
  intros l. split; [apply NoDup_remove_dups|]. intros x. apply elem_of_remove_dups.
Qed.

Lemma count_occ_round3 (l : list Q) (x : Z) :
  count_occ Z.eq_dec (round3 <$> l) x = length (filter (λ e, round3 e = x) l).
Proof.
  induction l as [| e l IH]; [done|].
  cbn [fmap list_fmap count_occ]. rewrite filter_cons.
  destruct (Z.eq_dec (round3 e) x) as [He | He].
  - rewrite decide_True by done. simpl. by rewrite IH.
  - by rewrite decide_False by done.
Qed.

Lemma count_occ_Permutation (l1 l2 : list Z) (x : Z) :
  l1 ≡ₚ l2 → count_occ Z.eq_dec l1 x = count_occ Z.eq_dec l2 x.
Proof.
  induction 1 as [| y l1 l2 _ IH | y z l | l1 l2 l3 _ IH1 _ IH2]; simpl.
  - done.
  - by rewrite IH.
  - by destruct (Z.eq_dec y x), (Z.eq_dec z x).
  - by rewrite IH1.
Qed.

(** C6. Whatever eigenvalues numpy returns and in whatever order the set is
    iterated, the table is the header followed by rows [[x, count]] such
    that: the keys x are pairwise distinct; they ascend strictly; the counts
    add up to the number n of eigenvalues; and the rows are exactly the
    rounded energies, each with the number of eigenvalues that round to
    it. *)
Theorem degeneracy_table_invariants
    (eigvals : list (list Z) → list Q) (set_ : list Z → list Z) (w : world) :
  set_spec set_ →
  ∃ levels : list level,
    Degeneracy_count eigvals set_ w = (Ok (header :: (level_row <$> levels)), w)
    ∧ NoDup levels.*1
    ∧ StronglySorted Z.lt levels.*1
    ∧ foldr Z.add 0 levels.*2 = Z.of_nat (length (eigvals (matrix w)))
    ∧ ∀ x c, (x, c) ∈ levels
             ↔ x ∈ round3 <$> eigvals (matrix w)
               ∧ c = Z.of_nat (length (filter (λ e, round3 e = x) (eigvals (matrix w)))).
Proof.
  intros Hset.
  exists (levels_of set_ (merge_sort Qle (eigvals (matrix w)))).
  split; [apply Degeneracy_count_eq|].
  split; [rewrite levels_of_keys; apply Hset|].
  split; [by apply levels_of_sorted|].
  split.
  - rewrite levels_of_counts by done. by rewrite merge_sort_Permutation.
  - intros x c. rewrite levels_of_elem by done.
    assert (Hp : round3 <$> merge_sort Qle (eigvals (matrix w))
                 ≡ₚ round3 <$> eigvals (matrix w))
      by (apply fmap_Permutation, merge_sort_Permutation).
    rewrite (count_occ_Permutation _ _ x Hp), count_occ_round3.
    by rewrite Hp.
Qed.

Lemma degeneracy_table_invariants_witness :
  set_spec remove_dups
  ∧ ∃ levels : list level,
      Degeneracy_count (λ _, noisy_spectrum) remove_dups (module_init [])
      = (Ok (header :: (level_row <$> levels)), module_init [])
      ∧ NoDup levels.*1
      ∧ StronglySorted Z.lt levels.*1
      ∧ foldr Z.add 0 levels.*2 = Z.of_nat (length noisy_spectrum)
      ∧ ∀ x c, (x, c) ∈ levels
               ↔ x ∈ round3 <$> noisy_spectrum
                 ∧ c = Z.of_nat (length (filter (λ e, round3 e = x) noisy_spectrum)).
Proof.
  split; [exact remove_dups_set_spec|].
  exact (degeneracy_table_invariants (λ _, noisy_spectrum) remove_dups (module_init [])
           remove_dups_set_spec).
Defined.

Example noisy_spectrum_table :
  Degeneracy_count (λ _, noisy_spectrum) remove_dups (module_init [])
  = (Ok [header; [CFloat (-2000); CInt 1]; [CFloat 0; CInt 2]; [CFloat 2000; CInt 1]],
     module_init []).
Proof. reflexivity. Qed.

(** ** Determinism *)

(** C10. The report is a function of the console input and the module
    state: for one eigenvalue routine, two runs from the same state end in
    the same state (same printed lines, same CSV rows) even if the two sets
    are iterated in different orders. Within a run, the table written to the
    CSV file is the table that was printed, and both are what
    [Degeneracy_count] computes from the matrix left in the module. *)
Theorem pipeline_deterministic
    (eigvals : list (list Z) → list Q) (set1 set2 : list Z → list Z) (w : world) :
  set_spec set1 →
  set_spec set2 →
  General_Huckel_Solver eigvals set1 w = General_Huckel_Solver eigvals set2 w
  ∧ ∀ w', General_Huckel_Solver eigvals set1 w = (Ok tt, w') →
          ∃ table statement shown,
            Degeneracy_count eigvals set1 w' = (Ok table, w')
            ∧ stdout w' = shown ++ [Print ""] ++ (PrintRow <$> table)
                                ++ [Print ""; Print statement]
            ∧ csv w' = Some (table ++ [[CStr statement]]).
Proof.
  intros H1 H2. rewrite !General_run. split.
  - destruct (input_problem w (stdin w) (stdout w)) as [[m|e] w1]; [|done].
    unfold report_world. by rewrite (levels_of_set_independent set1 set2).
  - intros w'. destruct (input_problem w (stdin w) (stdout w)) as [[m|e] w1]; [|done].
    intros [= <-]. rewrite Degeneracy_count_eq.
    eexists _, _, (stdout w1). split; [reflexivity|]. split; reflexivity.
Qed.

Lemma reverse_set_spec : set_spec (λ l, reverse (remove_dups l)).
Proof.
  intros l. split.
  - rewrite reverse_Permutation. apply NoDup_remove_dups.
  - intros x. rewrite elem_of_reverse. apply elem_of_remove_dups.
Qed.

Lemma pipeline_deterministic_witness :
  (set_spec remove_dups ∧ set_spec (λ l, reverse (remove_dups l)))
  ∧ General_Huckel_Solver (λ _, noisy_spectrum) remove_dups (module_init ["cyclic"; "4"])
    = General_Huckel_Solver (λ _, noisy_spectrum) (λ l, reverse (remove_dups l))
        (module_init ["cyclic"; "4"]).
Proof.
  split; [split; [exact remove_dups_set_spec | exact reverse_set_spec]|].
  exact (proj1 (pipeline_deterministic (λ _, noisy_spectrum) remove_dups
                  (λ l, reverse (remove_dups l)) (module_init ["cyclic"; "4"])
                  remove_dups_set_spec reverse_set_spec)).
Defined.

(** ** The two-atom chain *)

Lemma two_chain_evals eigvals :
  eigvals two_chain ≡ₚ [1; -1]%Q → merge_sort Qle (eigvals two_chain) = [-1; 1]%Q.
Proof.
  intros Hp. symmetry in Hp. apply Permutation_length_2_inv in Hp as [-> | ->]; reflexivity.
Qed.

Lemma two_chain_levels set_ :
  set_spec set_ → levels_of set_ [-1; 1]%Q = [(-1000, 1); (1000, 1)].
Proof.
  intros Hset. unfold levels_of.
  change (round3 <$> [-1; 1]%Q) with [-1000; 1000].
  pose proof (set_spec_Permutation remove_dups set_ [-1000; 1000]
                remove_dups_set_spec Hset) as Hp.
  change (remove_dups [-1000; 1000]) with [-1000; 1000] in Hp.
  apply Permutation_length_2_inv in Hp as [-> | ->]; reflexivity.
Qed.

(** C7. For the linear topology with n = 2 under alpha = 0, beta = -1: the
    built matrix is [[0,-1],[-1,0]]; its eigenvalues are exactly 1 and -1;
    and, numpy returning these two values, the sorted energies are
    [-1, 1], the degeneracy table is
    [["Energy","Degeneracy"], [-1.0,1], [1.0,1]], it is what is printed and
    written, and the sum check reads 0.000. *)
Theorem linear_two_example
    (eigvals : list (list Z) → list Q) (set_ : list Z → list Z) :
  set_spec set_ →
  eigvals two_chain ≡ₚ [1; -1]%Q →
  (∀ lam, eigenvalue two_chain lam ↔ (lam == 1 ∨ lam == -1)%Q)
  ∧ ∃ w',
      General_Huckel_Solver eigvals set_ (module_init ["linear"; "2"]) = (Ok tt, w')
      ∧ matrix w' = two_chain
      ∧ get_evals eigvals w' = (Ok [-1; 1]%Q, w')
      ∧ Degeneracy_count eigvals set_ w' = (Ok two_chain_table, w')
      ∧ format3 (sum [-1; 1]%Q) = "0.000"
      ∧ (∃ shown, stdout w' = shown ++ [Print ""] ++ (PrintRow <$> two_chain_table)
                                     ++ [Print ""; Print two_chain_statement])
      ∧ csv w' = Some (two_chain_table ++ [[CStr two_chain_statement]]).
Proof.
  intros Hset Heig. split; [exact eigenvalues_of_two_chain|].
  pose proof (two_chain_evals eigvals Heig) as Hev.
  pose proof (two_chain_levels set_ Hset) as Hlv.
  unfold two_chain in Hev.
  eexists. rewrite General_run.
  match goal with
  | |- context [input_problem ?w ?l ?o] =>
      let r := eval vm_compute in (input_problem w l o) in
      change (input_problem w l o) with r
  end.
  cbv beta iota. unfold report_world.
  rewrite Hev, Hlv.
  split; [reflexivity|]. split; [reflexivity|].
  split; [unfold get_evals; cbn; by rewrite Hev|].
  split; [rewrite Degeneracy_count_eq; cbn; by rewrite Hev, Hlv|].
  split; [reflexivity|].
  split; [|reflexivity].
  exists (problem_prompt_events ++ int_prompt_events linear_prompt). reflexivity.
Qed.

Lemma linear_two_example_witness :
  (set_spec remove_dups ∧ (λ _ : list (list Z), [1; -1]%Q) two_chain ≡ₚ [1; -1]%Q)
  ∧ ∃ w',
      General_Huckel_Solver (λ _, [1; -1]%Q) remove_dups (module_init ["linear"; "2"])
      = (Ok tt, w')
      ∧ matrix w' = two_chain
      ∧ get_evals (λ _, [1; -1]%Q) w' = (Ok [-1; 1]%Q, w')
      ∧ Degeneracy_count (λ _, [1; -1]%Q) remove_dups w' = (Ok two_chain_table, w')
      ∧ format3 (sum [-1; 1]%Q) = "0.000"
      ∧ (∃ shown, stdout w' = shown ++ [Print ""] ++ (PrintRow <$> two_chain_table)
                                     ++ [Print ""; Print two_chain_statement])
      ∧ csv w' = Some (two_chain_table ++ [[CStr two_chain_statement]]).
Proof.
  split; [split; [exact remove_dups_set_spec | reflexivity]|].
  exact (proj2 (linear_two_example (λ _, [1; -1]%Q) remove_dups
                  remove_dups_set_spec (Permutation_refl _))).
Defined.

(** * Further properties of the builders *)

(** ** Entries of the chain and of the ring *)

Lemma square_tabulate (n : Z) (f : Z → Z → Z) : square (Z.to_nat n) (tabulate n f).
Proof.
  split; [apply length_tabulate|].
  unfold tabulate. apply Forall_fmap, Forall_forall. intros i _. simpl.
  by rewrite length_fmap, length_seqZ.
Qed.

Lemma tabulate_has_entries (n : Z) (f : Z → Z → Z) (g : nat → nat → Z) :
  (∀ i j, (i < Z.to_nat n)%nat → (j < Z.to_nat n)%nat →
          f (Z.of_nat i) (Z.of_nat j) = g i j) →
  has_entries (Z.to_nat n) g (tabulate n f).
Proof.
  intros Hfg. split; [apply square_tabulate|]. intros i j Hi Hj.
  rewrite get_tabulate by lia. f_equal. by apply Hfg.
Qed.

Lemma linear_fill_entries (alpha beta n : Z) :
  0 ≤ n →
  ∃ M, linear_fill alpha beta n = Ok M
       ∧ has_entries (Z.to_nat n) (chain_value alpha beta) M.
Proof.
  intros Hn. eexists. split; [by apply linear_fill_tabulate|].
  apply tabulate_has_entries. intros i j Hi Hj.
  unfold linear_entry, chain_value. repeat case_decide; try done; lia.
Qed.

Lemma cyclic_fill_entries (alpha beta n : Z) :
  1 ≤ n →
  ∃ M, cyclic_fill alpha beta n = Ok M
       ∧ has_entries (Z.to_nat n) (ring_value alpha beta (Z.to_nat n)) M.
Proof.
  intros Hn. eexists. split; [by apply cyclic_fill_tabulate|].
  apply tabulate_has_entries. intros i j Hi Hj.
  unfold cyclic_entry, linear_entry, ring_value, chain_value.
  repeat case_decide; try done; lia.
Qed.

(** X1. For a size n >= 0 the linear builder returns the n x n matrix with
    alpha on the diagonal, beta on the two diagonals next to it and 0
    everywhere else. *)
Theorem linear_matrix_entries (w : world) (num : string) (rest : list string) (n : Z) :
  stdin w = num :: rest →
  int num = Some n →
  0 ≤ n →
  ∃ M w',
    Huckel_Solver_linear_n_polyene w = (Ok M, w')
    ∧ has_entries (Z.to_nat n) (chain_value (alpha w) (beta w)) M.
Proof.
  intros Hw Hnum Hn.
  destruct (linear_fill_entries (alpha w) (beta w) n Hn) as (M & HM & He).
  exists M. eexists. rewrite linear_run, (ask_int_accept _ w num rest n) by done.
  by rewrite HM.
Qed.

Lemma linear_matrix_entries_witness :
  (stdin (module_init ["3"]) = ["3"] ∧ int "3" = Some 3 ∧ 0 ≤ 3)
  ∧ ∃ M w',
      Huckel_Solver_linear_n_polyene (module_init ["3"]) = (Ok M, w')
      ∧ has_entries (Z.to_nat 3) (chain_value 0 (-1)) M.
Proof.
  split; [repeat split; lia|].
  exact (linear_matrix_entries (module_init ["3"]) "3" [] 3 eq_refl eq_refl ltac:(lia)).
Defined.

(** X2. For a size n >= 1 the cyclic builder returns the n x n matrix of
    the chain with, in addition, beta at the two wraparound positions
    (0, n-1) and (n-1, 0); written last, they win over the diagonal when
    n = 1. *)
Theorem cyclic_matrix_entries (w : world) (num : string) (rest : list string) (n : Z) :
  stdin w = num :: rest →
  int num = Some n →
  1 ≤ n →
  ∃ M w',
    Huckel_Solver_cyclic_n_polyene w = (Ok M, w')
    ∧ has_entries (Z.to_nat n) (ring_value (alpha w) (beta w) (Z.to_nat n)) M.
Proof.
  intros Hw Hnum Hn.
  destruct (cyclic_fill_entries (alpha w) (beta w) n Hn) as (M & HM & He).
  exists M. eexists. rewrite cyclic_run, (ask_int_accept _ w num rest n) by done.
  by rewrite HM.
Qed.

Lemma cyclic_matrix_entries_witness :
  (stdin (module_init ["6"]) = ["6"] ∧ int "6" = Some 6 ∧ 1 ≤ 6)
  ∧ ∃ M w',
      Huckel_Solver_cyclic_n_polyene (module_init ["6"]) = (Ok M, w')
      ∧ has_entries (Z.to_nat 6) (ring_value 0 (-1) (Z.to_nat 6)) M.
Proof.
  split; [repeat split; lia|].
  exact (cyclic_matrix_entries (module_init ["6"]) "6" [] 6 eq_refl eq_refl ltac:(lia)).
Defined.

(** X3. A ring of two atoms is the chain of two atoms: the wraparound
    assignments write the bond that is already there, so both builders
    return [[alpha, beta], [beta, alpha]]. *)
Theorem two_ring_is_two_chain (w : world) (num : string) (rest : list string) :
  stdin w = num :: rest →
  int num = Some 2 →
  (Huckel_Solver_cyclic_n_polyene w).1 = Ok [[alpha w; beta w]; [beta w; alpha w]]
  ∧ (Huckel_Solver_linear_n_polyene w).1 = Ok [[alpha w; beta w]; [beta w; alpha w]].
Proof.
  intros Hw Hnum.
  rewrite linear_run, cyclic_run, !(ask_int_accept _ w num rest 2) by done.
  split; reflexivity.
Qed.

Lemma two_ring_is_two_chain_witness :
  (stdin (altered_module ["2"]) = ["2"] ∧ int "2" = Some 2)
  ∧ (Huckel_Solver_cyclic_n_polyene (altered_module ["2"])).1 = Ok [[2; -3]; [-3; 2]]
  ∧ (Huckel_Solver_linear_n_polyene (altered_module ["2"])).1 = Ok [[2; -3]; [-3; 2]].
Proof.
  split; [split; reflexivity|].
  exact (two_ring_is_two_chain (altered_module ["2"]) "2" [] eq_refl eq_refl).
Defined.

(** X4. The trace of the matrix is n * alpha for the linear builder at
    every size n >= 0 and for the cyclic builder at every size n >= 2. *)
Theorem chain_and_ring_trace (w : world) (num : string) (rest : list string) (n : Z) :
  stdin w = num :: rest →
  int num = Some n →
  (0 ≤ n →
   ∃ M w', Huckel_Solver_linear_n_polyene w = (Ok M, w') ∧ trace M = n * alpha w)
  ∧ (2 ≤ n →
     ∃ M w', Huckel_Solver_cyclic_n_polyene w = (Ok M, w') ∧ trace M = n * alpha w).
Proof.
  intros Hw Hnum.
  rewrite linear_run, cyclic_run, !(ask_int_accept _ w num rest n) by done.
  split; intros Hn.
  - rewrite linear_fill_tabulate by done. eexists _, _. split; [reflexivity|].
    by apply linear_trace.
  - rewrite cyclic_fill_tabulate by lia. eexists _, _. split; [reflexivity|].
    by apply cyclic_trace.
Qed.

Lemma chain_and_ring_trace_witness :
  (stdin (altered_module ["5"]) = ["5"] ∧ int "5" = Some 5 ∧ 0 ≤ 5 ∧ 2 ≤ 5)
  ∧ (∃ M w', Huckel_Solver_linear_n_polyene (altered_module ["5"]) = (Ok M, w')
             ∧ trace M = 5 * 2)
  ∧ (∃ M w', Huckel_Solver_cyclic_n_polyene (altered_module ["5"]) = (Ok M, w')
             ∧ trace M = 5 * 2).
Proof.
  pose proof (chain_and_ring_trace (altered_module ["5"]) "5" [] 5 eq_refl eq_refl)
    as [Hl Hc].
  split; [repeat split; lia|].
  split; [exact (Hl ltac:(lia)) | exact (Hc ltac:(lia))].
Defined.

(** ** Degrees in the chain and in the ring *)

Lemma count_occ_fmap {A} (f : A → Z) (l : list A) (x : Z) :
  count_occ Z.eq_dec (f <$> l) x = length (filter (λ e, f e = x) l).
Proof.
  induction l as [| e l IH]; [done|].
  cbn [fmap list_fmap count_occ]. rewrite filter_cons.
  destruct (Z.eq_dec (f e) x) as [He | He].
  - rewrite decide_True by done. simpl. by rewrite IH.
  - by rewrite decide_False by done.
Qed.

Lemma delete_seqZ (n : Z) (i : nat) :
  Z.of_nat i < n →
  delete i (seqZ 0 n) = seqZ 0 (Z.of_nat i) ++ seqZ (Z.of_nat i + 1) (n - Z.of_nat i - 1).
Proof.
  intros Hi.
  replace n with (Z.of_nat i + (1 + (n - Z.of_nat i - 1))) at 1 by lia.
  rewrite seqZ_app by lia. rewrite (seqZ_app _ 1) by lia.
  change (seqZ (0 + Z.of_nat i) 1) with [0 + Z.of_nat i]. simpl.
  replace i with (length (seqZ 0 (Z.of_nat i))) at 1 by (rewrite length_seqZ; lia).
  rewrite delete_middle. by rewrite Z.add_0_l.
Qed.

Lemma NoDup_delete_seqZ (n : Z) (i : nat) : Z.of_nat i < n → NoDup (delete i (seqZ 0 n)).
Proof.
  intros Hi. rewrite delete_seqZ by done. apply NoDup_app.
  split; [apply NoDup_seqZ|]. split; [|apply NoDup_seqZ].
  intros x. rewrite !elem_of_seqZ. lia.
Qed.

Lemma elem_of_delete_seqZ (n : Z) (i : nat) (x : Z) :
  Z.of_nat i < n → x ∈ delete i (seqZ 0 n) ↔ 0 ≤ x < n ∧ x ≠ Z.of_nat i.
Proof.
  intros Hi. rewrite delete_seqZ, elem_of_app, !elem_of_seqZ by done. lia.
Qed.

(** Row [i] of a tabulated matrix has degree [length nbrs] when, off the
    diagonal, it holds [beta] exactly at the distinct columns [nbrs] and [0]
    elsewhere. *)
Lemma tabulate_row_degree (n : Z) (f : Z → Z → Z) (beta : Z) (i : nat) (nbrs : list Z) :
  Z.of_nat i < n →
  NoDup nbrs →
  (∀ j, 0 ≤ j < n → j ≠ Z.of_nat i →
        (f (Z.of_nat i) j = beta ↔ j ∈ nbrs) ∧ (j ∉ nbrs → f (Z.of_nat i) j = 0)) →
  (∀ j, j ∈ nbrs → 0 ≤ j < n ∧ j ≠ Z.of_nat i) →
  row_degree beta (length nbrs) i (f (Z.of_nat i) <$> seqZ 0 n).
Proof.
  intros Hi Hnd Hf Hin. unfold row_degree.
  rewrite <- list_fmap_delete.
  split.
  - rewrite count_occ_fmap. apply Permutation_length, NoDup_Permutation; [| done |].
    + apply NoDup_filter, NoDup_delete_seqZ. lia.
    + intros j. rewrite list_elem_of_filter, elem_of_delete_seqZ by lia. split.
      * intros [Hb [Hj Hne]]. by apply (Hf j Hj Hne).
      * intros Hj. destruct (Hin j Hj) as [Hr Hne]. split; [|done].
        by apply (Hf j Hr Hne).
  - apply Forall_fmap, Forall_forall. intros j Hj. simpl.
    apply elem_of_delete_seqZ in Hj as [Hj Hne]; [|lia].
    destruct (decide (j ∈ nbrs)) as [Hjn | Hjn].
    + left. by apply (Hf j Hj Hne).
    + right. by apply (Hf j Hj Hne).
Qed.

Lemma tabulate_regular (n : Z) (f : Z → Z → Z) (beta : Z) (deg : nat → nat) :
  (∀ i, Z.of_nat i < n →
        row_degree beta (deg i) i (f (Z.of_nat i) <$> seqZ 0 n)) →
  ∀ i line, tabulate n f !! i = Some line → row_degree beta (deg i) i line.
Proof.
  intros H i line Hl.
  destruct (decide (Z.of_nat i < n)) as [Hi | Hi].
  - rewrite lookup_tabulate in Hl by done. injection Hl as <-. by apply H.
  - by rewrite lookup_tabulate_ge in Hl by lia.
Qed.

(** The neighbours of atom [i] in a ring of [n >= 3] atoms and in a chain
    of [n >= 2] atoms. *)
Lemma ring_row_degree (alpha beta n : Z) (i : nat) :
  3 ≤ n → beta ≠ 0 → Z.of_nat i < n →
  row_degree beta 2 i (cyclic_entry alpha beta n (Z.of_nat i) <$> seqZ 0 n).
Proof.
  intros Hn Hb Hi.
  apply (tabulate_row_degree n (cyclic_entry alpha beta n) beta i
           [(Z.of_nat i + 1) `mod` n; (Z.of_nat i - 1) `mod` n]); [done | | |].
  - apply NoDup_cons. split; [|apply NoDup_singleton].
    rewrite list_elem_of_singleton.
    destruct (decide (Z.of_nat i = 0)) as [-> | H0];
      [|destruct (decide (Z.of_nat i = n - 1)) as [-> | H1]].
    + rewrite Z.mod_small by lia.
      replace (0 - 1) with (n - 1 + (-1) * n) by lia.
      rewrite Z.mod_add, Z.mod_small by lia. lia.
    + replace (n - 1 + 1) with (0 + 1 * n) by lia.
      rewrite Z.mod_add, Z.mod_0_l, Z.mod_small by lia. lia.
    + rewrite !Z.mod_small by lia. lia.
  - intros j Hj Hne. rewrite !elem_of_cons, !elem_of_nil.
    unfold cyclic_entry, linear_entry.
    destruct (decide (Z.of_nat i = 0)) as [E0 | H0];
      [|destruct (decide (Z.of_nat i = n - 1)) as [E1 | H1]].
    + rewrite E0. rewrite (Z.mod_small (0 + 1)) by lia.
      replace (0 - 1) with (n - 1 + (-1) * n) by lia.
      rewrite Z.mod_add, Z.mod_small by lia.
      repeat case_decide; split; try tauto; try lia; intros; try lia; try done.
    + rewrite E1. replace (n - 1 + 1) with (0 + 1 * n) by lia.
      rewrite Z.mod_add, Z.mod_0_l, (Z.mod_small (n - 1 - 1)) by lia.
      repeat case_decide; split; try tauto; try lia; intros; try lia; try done.
    + rewrite !Z.mod_small by lia.
      repeat case_decide; split; try tauto; try lia; intros; try lia; try done.
  - intros j. rewrite !elem_of_cons, !elem_of_nil.
    destruct (decide (Z.of_nat i = 0)) as [E0 | H0];
      [|destruct (decide (Z.of_nat i = n - 1)) as [E1 | H1]].
    + rewrite E0. rewrite (Z.mod_small (0 + 1)) by lia.
      replace (0 - 1) with (n - 1 + (-1) * n) by lia.
      rewrite Z.mod_add, Z.mod_small by lia. lia.
    + rewrite E1. replace (n - 1 + 1) with (0 + 1 * n) by lia.
      rewrite Z.mod_add, Z.mod_0_l, (Z.mod_small (n - 1 - 1)) by lia. lia.
    + rewrite !Z.mod_small by lia. lia.
Qed.

Lemma chain_row_degree (alpha beta n : Z) (i : nat) :
  2 ≤ n → beta ≠ 0 → Z.of_nat i < n →
  row_degree beta (chain_degree (Z.to_nat n) i) i
    (linear_entry alpha beta (Z.of_nat i) <$> seqZ 0 n).
Proof.
  intros Hn Hb Hi. unfold chain_degree.
  destruct (decide (i = 0 ∨ S i = Z.to_nat n)%nat) as [Hend | Hmid].
  - apply (tabulate_row_degree n (linear_entry alpha beta) beta i
             [if decide (i = 0%nat) then 1 else n - 2]); [done | | |].
    + apply NoDup_singleton.
    + intros j Hj Hne. rewrite list_elem_of_singleton. unfold linear_entry.
      repeat case_decide; split; try tauto; try lia; intros; try lia; try done.
    + intros j. rewrite list_elem_of_singleton. case_decide; lia.
  - apply (tabulate_row_degree n (linear_entry alpha beta) beta i
             [Z.of_nat i - 1; Z.of_nat i + 1]); [done | | |].
    + apply NoDup_cons. split; [|apply NoDup_singleton].
      rewrite list_elem_of_singleton. lia.
    + intros j Hj Hne. rewrite !elem_of_cons, !elem_of_nil. unfold linear_entry.
      repeat case_decide; split; try tauto; try lia; intros; try lia; try done.
    + intros j. rewrite !elem_of_cons, !elem_of_nil. lia.
Qed.

(** X5. In a ring of n >= 3 atoms with beta <> 0 every atom has exactly two
    neighbours: each row holds, off the diagonal, two entries equal to beta
    and zeros elsewhere. *)
Theorem ring_two_regular (w : world) (num : string) (rest : list string) (n : Z) :
  stdin w = num :: rest →
  int num = Some n →
  3 ≤ n →
  beta w ≠ 0 →
  ∃ M w', Huckel_Solver_cyclic_n_polyene w = (Ok M, w') ∧ regular (beta w) 2 M.
Proof.
  intros Hw Hnum Hn Hb.
  rewrite cyclic_run, (ask_int_accept _ w num rest n) by done.
  rewrite cyclic_fill_tabulate by lia. eexists _, _. split; [reflexivity|].
  unfold regular. apply (tabulate_regular n _ (beta w) (λ _, 2%nat)).
  intros i Hi. by apply ring_row_degree.
Qed.

Lemma ring_two_regular_witness :
  (stdin (module_init ["7"]) = ["7"] ∧ int "7" = Some 7 ∧ 3 ≤ 7 ∧ -1 ≠ 0)
  ∧ ∃ M w', Huckel_Solver_cyclic_n_polyene (module_init ["7"]) = (Ok M, w')
            ∧ regular (-1) 2 M.
Proof.
  split; [repeat split; lia|].
  exact (ring_two_regular (module_init ["7"]) "7" [] 7 eq_refl eq_refl
           ltac:(lia) ltac:(simpl; lia)).
Defined.

(** X6. In a chain of n >= 2 atoms with beta <> 0 the two end atoms have one
    neighbour and every other atom has two. *)
Theorem chain_degrees (w : world) (num : string) (rest : list string) (n : Z) :
  stdin w = num :: rest →
  int num = Some n →
  2 ≤ n →
  beta w ≠ 0 →
  ∃ M w',
    Huckel_Solver_linear_n_polyene w = (Ok M, w')
    ∧ ∀ i line, M !! i = Some line →
                row_degree (beta w) (chain_degree (Z.to_nat n) i) i line.
Proof.
  intros Hw Hnum Hn Hb.
  rewrite linear_run, (ask_int_accept _ w num rest n) by done.
  rewrite linear_fill_tabulate by lia. eexists _, _. split; [reflexivity|].
  apply (tabulate_regular n _ (beta w) (chain_degree (Z.to_nat n))).
  intros i Hi. by apply chain_row_degree.
Qed.

Lemma chain_degrees_witness :
  (stdin (module_init ["4"]) = ["4"] ∧ int "4" = Some 4 ∧ 2 ≤ 4 ∧ -1 ≠ 0)
  ∧ ∃ M w',
      Huckel_Solver_linear_n_polyene (module_init ["4"]) = (Ok M, w')
      ∧ ∀ i line, M !! i = Some line →
                  row_degree (-1) (chain_degree (Z.to_nat 4) i) i line.
Proof.
  split; [repeat split; lia|].
  exact (chain_degrees (module_init ["4"]) "4" [] 4 eq_refl eq_refl
           ltac:(lia) ltac:(simpl; lia)).
Defined.

(** ** The adjacency-table loop of the cube and the dodecahedron *)

Lemma for_tabulate (l : list Z) (body : Z → list (list Z) → result (list (list Z)))
    (n : Z) (F : Z → (Z → Z → Z) → Z → Z → Z) (f : Z → Z → Z) :
  (∀ i g, i ∈ l → body i (tabulate n g) = Ok (tabulate n (F i g))) →
  for_ l body (tabulate n f) = Ok (tabulate n (fold_left (λ g i, F i g) l f)).
Proof.
  revert f. induction l as [| i l IH]; intros f Hb; [done|].
  simpl. rewrite Hb by (by left). rewrite result_bind_Ok.
  apply IH. intros j g Hj. apply Hb. by right.
Qed.

Lemma has_entries_tabulate (n : nat) (f : nat → nat → Z) (a : list (list Z)) :
  has_entries n f a → a = tabulate (Z.of_nat n) (λ i j, f (Z.to_nat i) (Z.to_nat j)).
Proof.
  intros [[Hlen Hrows] Hget]. apply list_eq. intros i.
  destruct (decide (i < n)%nat) as [Hi | Hi].
  - rewrite lookup_tabulate by lia.
    destruct (a !! i) as [line|] eqn:El;
      [|apply lookup_ge_None in El; lia].
    f_equal. apply list_eq. intros j.
    rewrite Forall_forall in Hrows.
    specialize (Hrows line ltac:(by eapply list_elem_of_lookup_2)).
    rewrite list_lookup_fmap.
    destruct (decide (j < n)%nat) as [Hj | Hj].
    + rewrite lookup_seqZ_lt by lia. simpl.
      specialize (Hget i j Hi Hj). unfold get in Hget. rewrite El in Hget. simpl in Hget.
      rewrite Hget. f_equal. f_equal; lia.
    + rewrite lookup_seqZ_ge by lia. apply lookup_ge_None. lia.
  - rewrite lookup_tabulate_ge by lia. apply lookup_ge_None. lia.
Qed.

Lemma fill_columns_tabulate (table : list (list Z)) (n : nat) (f : Z → Z → Z) :
  valid_table n table →
  fill_columns table (tabulate (Z.of_nat n) f)
  = Ok (tabulate (Z.of_nat n)
          (λ a b, if decide (b ∈ neighbours table (Z.to_nat a)) then -1 else f a b)).
Proof.
  intros [Hlen Hrows]. unfold fill_columns.
  rewrite (for_tabulate _ _ (Z.of_nat n)
             (λ i g a b, if decide (a = i ∧ b ∈ neighbours table (Z.to_nat i))
                         then -1 else g a b)).
  - f_equal. apply tabulate_ext. intros a b Ha Hb.
    assert (Hgen : ∀ l g,
      fold_left (λ g i a b, if decide (a = i ∧ b ∈ neighbours table (Z.to_nat i))
                            then -1 else g a b) l g a b
      = if decide (a ∈ l ∧ b ∈ neighbours table (Z.to_nat a)) then -1 else g a b).
    { clear. induction l as [| i l IH]; intros g; cbn [fold_left].
      - case_decide as Hc; [|done]. destruct Hc as [Hc _]. by apply elem_of_nil in Hc.
      - rewrite IH. repeat case_decide; try done; exfalso;
          repeat match goal with
            | H : _ ∧ _ |- _ => destruct H
            | H : _ ∈ _ :: _ |- _ => apply elem_of_cons in H as [? | ?]
            | H : ¬ (_ ∈ _ :: _ ∧ _) |- _ => rewrite elem_of_cons in H
            end; subst; tauto. }
    rewrite Hgen. unfold range.
    destruct (decide (b ∈ neighbours table (Z.to_nat a))) as [Hn | Hn].
    + rewrite decide_True; [done|]. split; [|done].
      apply elem_of_seqZ.
      unfold neighbours in Hn.
      destruct (table !! Z.to_nat a) eqn:Et; [|by apply elem_of_nil in Hn].
      apply lookup_lt_Some in Et. lia.
    + rewrite decide_False; [done | tauto].
  - intros i g Hi. apply elem_of_seqZ in Hi.
    assert (Hlt : (Z.to_nat i < length table)%nat) by lia.
    destruct (lookup_lt_is_Some_2 table _ Hlt) as [t Ht].
    rewrite Forall_forall in Hrows.
    destruct (Hrows t ltac:(by eapply list_elem_of_lookup_2)) as [Ht3 Hcols].
    destruct t as [| c0 [| c1 [| c2 t]]]; simpl in Ht3; try lia.
    simpl in Hcols.
    apply Forall_cons in Hcols as [H0 Hcols].
    apply Forall_cons in Hcols as [H1 Hcols].
    apply Forall_cons in Hcols as [H2 _].
    assert (Hg : ∀ k c, [c0; c1; c2] !! k = Some c →
              (getitem table i ≫= λ t0, getitem t0 (Z.of_nat k)) = Ok c).
    { intros k c Hk. unfold getitem.
      rewrite norm_index_inside by lia. rewrite result_bind_Ok, Ht, result_bind_Ok.
      rewrite norm_index_inside by (apply lookup_lt_Some in Hk; simpl in *; lia).
      rewrite result_bind_Ok, Nat2Z.id.
      by destruct k as [| [| [| k]]]; simplify_eq/=. }
    pose proof (Hg 0%nat c0 eq_refl) as G0.
    pose proof (Hg 1%nat c1 eq_refl) as G1.
    pose proof (Hg 2%nat c2 eq_refl) as G2.
    change (Z.of_nat 0) with 0 in G0. change (Z.of_nat 1) with 1 in G1.
    change (Z.of_nat 2) with 2 in G2.
    cbv beta. rewrite G0, G1, G2.
    rewrite result_bind_Ok, setitem_tabulate, !result_bind_Ok by lia.
    rewrite setitem_tabulate, !result_bind_Ok by lia.
    rewrite setitem_tabulate by lia.
    f_equal. apply tabulate_ext. intros a b Ha Hb.
    unfold upd, neighbours. rewrite Ht. simpl. rewrite take_0.
    repeat case_decide; try done; exfalso;
      repeat match goal with
        | H : _ ∧ _ |- _ => destruct H
        | H : _ ∈ _ :: _ |- _ => apply elem_of_cons in H as [? | ?]
        | H : _ ∈ [] |- _ => by apply elem_of_nil in H
        | H : ¬ (_ ∧ _ ∈ _) |- _ => rewrite !elem_of_cons in H
        end; subst; tauto.
Qed.

(** X7. The loop that fills a matrix from an adjacency table, run on an
    n x n matrix with a table whose rows list three columns inside the
    matrix, succeeds and changes exactly the listed positions: entry (i, j)
    becomes -1 when j is one of the three columns listed for row i, and
    keeps its value otherwise. *)
Theorem fill_columns_entries
    (table : list (list Z)) (n : nat) (f : nat → nat → Z) (a : list (list Z)) :
  valid_table n table →
  has_entries n f a →
  ∃ M, fill_columns table a = Ok M
       ∧ has_entries n
           (λ i j, if decide (Z.of_nat j ∈ neighbours table i) then -1 else f i j) M.
Proof.
  intros Hvalid Ha. rewrite (has_entries_tabulate n f a Ha).
  rewrite fill_columns_tabulate by done. eexists. split; [reflexivity|].
  replace n with (Z.to_nat (Z.of_nat n)) at 1 by lia.
  apply tabulate_has_entries. intros i j Hi Hj. by rewrite !Nat2Z.id.
Qed.

Lemma fill_columns_entries_witness :
  (valid_table 8 column_elem
   ∧ has_entries 8 (λ _ _, 0) (tabulate 8 (λ _ _, 0)))
  ∧ ∃ M, fill_columns column_elem (tabulate 8 (λ _ _, 0)) = Ok M
         ∧ has_entries 8
             (λ i j, if decide (Z.of_nat j ∈ neighbours column_elem i) then -1 else 0) M.
Proof.
  assert (Hv : valid_table 8 column_elem) by (split; [vm_compute; lia | decide_by_computation]).
  assert (Ha : has_entries 8 (λ _ _, 0) (tabulate 8 (λ _ _, 0)))
    by (apply (tabulate_has_entries 8); done).
  split; [by split|].
  exact (fill_columns_entries column_elem 8 (λ _ _, 0) (tabulate 8 (λ _ _, 0)) Hv Ha).
Defined.

(** ** Entries of the solids *)

Lemma has_entries_check (n : nat) (f : nat → nat → Z) (M : list (list Z)) :
  square n M →
  Forall (λ i, Forall (λ j, get M i j = Some (f i j)) (seq 0 n)) (seq 0 n) →
  has_entries n f M.
Proof.
  intros Hsq Hall. split; [done|]. intros i j Hi Hj.
  rewrite Forall_forall in Hall. specialize (Hall i ltac:(apply elem_of_seq; lia)).
  rewrite Forall_forall in Hall. apply Hall. apply elem_of_seq. lia.
Qed.

Lemma solid_matrix_has_entries (s : solid) :
  ∃ M, solid_matrix s = Ok M ∧ has_entries (solid_size s) (solid_value s) M.
Proof.
  destruct s; eexists; (split; [vm_compute; reflexivity|]);
    (apply has_entries_check;
       [split; [reflexivity | decide_by_computation] | decide_by_computation]).
Qed.

(** X8. The matrices of the four solids, entry by entry. Tetrahedron: 0 on
    the diagonal, -1 everywhere else. Octahedron: 0 on the diagonal and at
    the antipodal pairs (i, 5 - i), -1 everywhere else. Cube and
    dodecahedron: -1 exactly at the columns that the adjacency table lists
    for the row, 0 everywhere else. *)
Theorem solid_matrix_entries (s : solid) (w : world) (shape : string) (rest : list string) :
  stdin w = shape :: rest →
  lower shape = solid_name s →
  ∃ M w',
    Huckel_Solver_Platonic_Solid w = (Ok M, w')
    ∧ has_entries (solid_size s) (solid_value s) M.
Proof.
  intros Hw Hs. destruct (solid_matrix_has_entries s) as (M & HM & He).
  exists M. eexists. rewrite (platonic_accept s w shape rest) by done. by rewrite HM.
Qed.

Lemma solid_matrix_entries_witness :
  (stdin (module_init ["OCTAHEDRON"]) = ["OCTAHEDRON"]
   ∧ lower "OCTAHEDRON" = solid_name Octahedron)
  ∧ ∃ M w',
      Huckel_Solver_Platonic_Solid (module_init ["OCTAHEDRON"]) = (Ok M, w')
      ∧ has_entries (solid_size Octahedron) (solid_value Octahedron) M.
Proof.
  split; [split; reflexivity|].
  exact (solid_matrix_entries Octahedron (module_init ["OCTAHEDRON"]) "OCTAHEDRON" []
           eq_refl eq_refl).
Defined.

(** ** The prompt loops *)

Lemma input_int_skip prompt skipped lines out :
  Forall (λ s, int s = None) skipped →
  input_int prompt (skipped ++ lines) out
  = input_int prompt lines
      (out ++ concat (replicate (length skipped) (int_retry_events prompt))).
Proof.
  intros Hs. revert out. induction Hs as [| s skipped Hs _ IH]; intros out.
  - simpl. by rewrite (right_id [] (++)).
  - rewrite <- app_comm_cons, input_int_retry by done. rewrite IH.
    simpl. by rewrite <- !(assoc (++)).
Qed.

Lemma input_int_end prompt out :
  input_int prompt [] out = (Raise EOFError, ([], out ++ int_prompt_events prompt)).
Proof. reflexivity. Qed.

Lemma input_shape_skip skipped lines out :
  Forall (λ t, ¬ is_solid_name (lower t) ∧ t ≠ "none") skipped →
  input_shape (skipped ++ lines) out
  = input_shape lines (out ++ concat (replicate (length skipped) shape_retry_events)).
Proof.
  intros Hs. revert out. induction Hs as [| t skipped [Ht Hn] _ IH]; intros out.
  - simpl. by rewrite (right_id [] (++)).
  - rewrite <- app_comm_cons, input_shape_reject by done.
    rewrite eqb_false_of_ne by done. rewrite IH.
    unfold shape_retry_events. simpl. by rewrite <- !(assoc (++)).
Qed.

Lemma input_problem_skip w skipped lines out :
  Forall (λ t, ¬ is_problem_name (lower t) ∧ t ≠ "exit") skipped →
  input_problem w (skipped ++ lines) out
  = input_problem w lines
      (out ++ concat (replicate (length skipped) problem_retry_events)).
Proof.
  intros Hs. revert out. induction Hs as [| t skipped [Ht Hn] _ IH]; intros out.
  - simpl. by rewrite (right_id [] (++)).
  - rewrite <- app_comm_cons, input_problem_reject by done.
    rewrite eqb_false_of_ne by done. rewrite IH.
    unfold problem_retry_events. simpl. by rewrite <- !(assoc (++)).
Qed.

Lemma ask_int_skip prompt w skipped num rest n :
  stdin w = skipped ++ num :: rest →
  Forall (λ s, int s = None) skipped →
  int num = Some n →
  ask_int prompt w
  = (Ok n, set_console rest
             (stdout w ++ retries (length skipped) (int_retry_events prompt)
                            (int_prompt_events prompt)) w).
Proof.
  intros Hw Hs Hn. unfold ask_int. rewrite Hw, input_int_skip by done.
  rewrite (input_int_accept _ _ _ _ n) by done.
  unfold retries. by rewrite <- !(assoc (++)).
Qed.

Lemma ask_int_end prompt w :
  Forall (λ s, int s = None) (stdin w) →
  ask_int prompt w
  = (Raise EOFError,
     set_console [] (stdout w ++ retries (length (stdin w)) (int_retry_events prompt)
                                  (int_prompt_events prompt)) w).
Proof.
  intros Hs. unfold ask_int.
  rewrite <- (right_id [] (++) (stdin w)) at 1.
  rewrite input_int_skip, input_int_end by done.
  unfold retries. by rewrite <- !(assoc (++)).
Qed.

(** X9. The size used by the linear and the cyclic builder is the first
    answer that [int] accepts: every earlier answer is refused with the
    message and a new prompt, the later lines stay unread, and the result is
    what the fill loops compute for that size. *)
Theorem size_prompt_first_integer
    (w : world) (skipped : list string) (num : string) (rest : list string) (n : Z) :
  stdin w = skipped ++ num :: rest →
  Forall (λ s, int s = None) skipped →
  int num = Some n →
  Huckel_Solver_linear_n_polyene w
  = (linear_fill (alpha w) (beta w) n,
     set_console rest
       (stdout w ++ retries (length skipped) (int_retry_events linear_prompt)
                      (int_prompt_events linear_prompt)) w)
  ∧ Huckel_Solver_cyclic_n_polyene w
    = (cyclic_fill (alpha w) (beta w) n,
       set_console rest
         (stdout w ++ retries (length skipped) (int_retry_events cyclic_prompt)
                        (int_prompt_events cyclic_prompt)) w).
Proof.
  intros Hw Hs Hn. rewrite linear_run, cyclic_run.
  by rewrite !(ask_int_skip _ w skipped num rest n).
Qed.

Lemma size_prompt_first_integer_witness :
  (stdin (module_init ["three"; "3.0"; " 3 "; "9"]) = ["three"; "3.0"] ++ " 3 " :: ["9"]
   ∧ Forall (λ s, int s = None) ["three"; "3.0"]
   ∧ int " 3 " = Some 3)
  ∧ (Huckel_Solver_linear_n_polyene (module_init ["three"; "3.0"; " 3 "; "9"])).1
    = Ok [[0; -1; 0]; [-1; 0; -1]; [0; -1; 0]]
  ∧ stdin (Huckel_Solver_linear_n_polyene (module_init ["three"; "3.0"; " 3 "; "9"])).2
    = ["9"].
Proof.
  assert (Hs : Forall (λ s, int s = None) ["three"; "3.0"]) by (by repeat constructor).
  pose proof (size_prompt_first_integer (module_init ["three"; "3.0"; " 3 "; "9"])
                ["three"; "3.0"] " 3 " ["9"] 3 eq_refl Hs eq_refl) as [Hl _].
  split; [by repeat split|]. rewrite Hl. split; reflexivity.
Defined.

(** X10. When the input ends before an integer was given, empty input
    included, both builders raise [EOFError]: they have asked once per line
    and once more, all lines are consumed and no matrix is built. *)
Theorem size_prompt_end_of_input (w : world) :
  Forall (λ s, int s = None) (stdin w) →
  Huckel_Solver_linear_n_polyene w
  = (Raise EOFError,
     set_console []
       (stdout w ++ retries (length (stdin w)) (int_retry_events linear_prompt)
                      (int_prompt_events linear_prompt)) w)
  ∧ Huckel_Solver_cyclic_n_polyene w
    = (Raise EOFError,
       set_console []
         (stdout w ++ retries (length (stdin w)) (int_retry_events cyclic_prompt)
                        (int_prompt_events cyclic_prompt)) w).
Proof.
  intros Hs. rewrite linear_run, cyclic_run. by rewrite !ask_int_end.
Qed.

Lemma size_prompt_end_of_input_witness :
  Forall (λ s, int s = None) (stdin (module_init ["ten"; ""]))
  ∧ (Huckel_Solver_linear_n_polyene (module_init ["ten"; ""])).1 = Raise EOFError
  ∧ (Huckel_Solver_cyclic_n_polyene (module_init []%list)).1 = Raise EOFError.
Proof.
  assert (Hs : Forall (λ s, int s = None) (stdin (module_init ["ten"; ""])))
    by (by repeat constructor).
  pose proof (size_prompt_end_of_input (module_init ["ten"; ""]) Hs) as [Hl _].
  pose proof (size_prompt_end_of_input (module_init []) (Forall_nil_2 _)) as [_ Hc].
  split; [done|]. rewrite Hl, Hc. split; reflexivity.
Defined.

(** X11. The shape prompt takes the first answer that, in lower case, names
    a solid, or the first answer that is exactly none, whichever comes
    first: every earlier answer is refused with the message; a solid yields
    its matrix, none ends the program with [SystemExit]; the later lines
    stay unread. *)
Theorem shape_prompt_first_answer
    (w : world) (skipped : list string) (t : string) (rest : list string) :
  stdin w = skipped ++ t :: rest →
  Forall (λ t, ¬ is_solid_name (lower t) ∧ t ≠ "none") skipped →
  let w' := set_console rest
              (stdout w ++ retries (length skipped) shape_retry_events shape_prompt_events)
              w in
  (∀ s, lower t = solid_name s → Huckel_Solver_Platonic_Solid w = (solid_matrix s, w'))
  ∧ (t = "none" → Huckel_Solver_Platonic_Solid w = (Raise SystemExit, w')).
Proof.
  intros Hw Hs w'. unfold Huckel_Solver_Platonic_Solid.
  rewrite Hw, input_shape_skip by done. subst w'. unfold retries. split.
  - intros s Ht. rewrite (input_shape_accept s) by done.
    by rewrite <- !(assoc (++)).
  - intros ->. simpl. by rewrite <- !(assoc (++)).
Qed.

Lemma shape_prompt_first_answer_witness :
  (stdin (module_init ["ball"; "None"; "Cube"; "none"]) = ["ball"; "None"] ++ "Cube" :: ["none"]
   ∧ Forall (λ t, ¬ is_solid_name (lower t) ∧ t ≠ "none") ["ball"; "None"])
  ∧ (Huckel_Solver_Platonic_Solid (module_init ["ball"; "None"; "Cube"; "none"])).1
    = solid_matrix Cube
  ∧ stdin (Huckel_Solver_Platonic_Solid (module_init ["ball"; "None"; "Cube"; "none"])).2
    = ["none"].
Proof.
  assert (Hs : Forall (λ t, ¬ is_solid_name (lower t) ∧ t ≠ "none") ["ball"; "None"]).
  { repeat constructor; try discriminate;
      unfold is_solid_name; intros [H | [H | [H | H]]]; discriminate H. }
  pose proof (shape_prompt_first_answer (module_init ["ball"; "None"; "Cube"; "none"])
                ["ball"; "None"] "Cube" ["none"] eq_refl Hs) as [Hcube _].
  split; [by split|]. rewrite (Hcube Cube eq_refl). split; reflexivity.
Defined.

(** ** What a run leaves untouched *)

Lemma input_int_frame prompt lines out r lines' out' :
  input_int prompt lines out = (r, (lines', out')) →
  lines' `suffix_of` lines ∧ ∃ evs, out' = out ++ evs ∧ Forall no_row evs.
Proof.
  revert out. induction lines as [| num rest IH]; intros out H.
  - rewrite input_int_end in H. injection H as _ <- <-. split; [done|].
    eexists. split; [done|]. by repeat constructor.
  - destruct (int num) as [n|] eqn:E.
    + rewrite (input_int_accept _ _ _ _ n) in H by done. injection H as _ <- <-.
      split; [by apply suffix_cons_r|]. eexists. split; [done|]. by repeat constructor.
    + rewrite input_int_retry in H by done.
      destruct (IH _ H) as [Hsuf (evs & -> & Hevs)].
      split; [by apply suffix_cons_r|].
      exists (int_retry_events prompt ++ evs). split; [by rewrite (assoc (++))|].
      apply Forall_app. split; [by repeat constructor | done].
Qed.

Lemma input_shape_frame lines out r lines' out' :
  input_shape lines out = (r, (lines', out')) →
  lines' `suffix_of` lines ∧ ∃ evs, out' = out ++ evs ∧ Forall no_row evs.
Proof.
  revert out. induction lines as [| shape rest IH]; intros out H.
  - injection H as _ <- <-. split; [done|].
    eexists. split; [done|]. by repeat constructor.
  - destruct (decide (is_solid_name (lower shape))) as [Hs | Hs].
    + apply is_solid_name_spec in Hs as [s Hs].
      rewrite (input_shape_accept s) in H by done. injection H as _ <- <-.
      split; [by apply suffix_cons_r|]. eexists. split; [done|]. by repeat constructor.
    + rewrite input_shape_reject in H by done.
      destruct (String.eqb shape "none").
      * injection H as _ <- <-.
        split; [by apply suffix_cons_r|]. eexists. split; [done|]. by repeat constructor.
      * destruct (IH _ H) as [Hsuf (evs & -> & Hevs)].
        split; [by apply suffix_cons_r|].
        exists (shape_prompt_events ++ [Print shape_message] ++ evs).
        split; [by rewrite <- !(assoc (++))|].
        apply Forall_app. split; [by repeat constructor|].
        apply Forall_app. split; [by repeat constructor | done].
Qed.

Lemma ask_int_uniform prompt a b lines out : uniform (ask_int prompt) a b lines out.
Proof.
  destruct (input_int prompt lines out) as [r [lines' out']] eqn:E.
  exists r, lines', out'. destruct (input_int_frame _ _ _ _ _ _ E) as [Hsuf Hevs].
  split; [done|]. split; [done|].
  intros w _ _ Hin Hout. unfold ask_int. by rewrite Hin, Hout, E.
Qed.

Lemma linear_uniform a b lines out : uniform Huckel_Solver_linear_n_polyene a b lines out.
Proof.
  destruct (ask_int_uniform linear_prompt a b lines out)
    as (r & lines' & out' & Hsuf & Hevs & Hrun).
  exists (match r with Ok n => linear_fill a b n | Raise e => Raise e end), lines', out'.
  split; [done|]. split; [done|].
  intros w Ha Hb Hin Hout. rewrite linear_run.
  change "How many carbons in your linear poly-ene? " with linear_prompt.
  rewrite (Hrun w Ha Hb Hin Hout), Ha, Hb. by destruct r.
Qed.

Lemma cyclic_uniform a b lines out : uniform Huckel_Solver_cyclic_n_polyene a b lines out.
Proof.
  destruct (ask_int_uniform cyclic_prompt a b lines out)
    as (r & lines' & out' & Hsuf & Hevs & Hrun).
  exists (match r with Ok n => cyclic_fill a b n | Raise e => Raise e end), lines', out'.
  split; [done|]. split; [done|].
  intros w Ha Hb Hin Hout. rewrite cyclic_run.
  change "How many carbons in your cyclic poly-ene? " with cyclic_prompt.
  rewrite (Hrun w Ha Hb Hin Hout), Ha, Hb. by destruct r.
Qed.

Lemma platonic_uniform a b lines out : uniform Huckel_Solver_Platonic_Solid a b lines out.
Proof.
  destruct (input_shape lines out) as [r [lines' out']] eqn:E.
  exists r, lines', out'. destruct (input_shape_frame _ _ _ _ _ E) as [Hsuf Hevs].
  split; [done|]. split; [done|].
  intros w _ _ Hin Hout. unfold Huckel_Solver_Platonic_Solid. by rewrite Hin, Hout, E.
Qed.

Lemma uniform_later {A} (m : IO A) a b lines out t evs0 :
  Forall no_row evs0 →
  uniform m a b lines (out ++ evs0) →
  ∃ r lines' out',
    lines' `suffix_of` (t :: lines)
    ∧ (∃ evs, out' = out ++ evs ∧ Forall no_row evs)
    ∧ ∀ w, alpha w = a → beta w = b →
           m (set_console lines (out ++ evs0) w) = (r, set_console lines' out' w).
Proof.
  intros H0 (r & lines' & out' & Hsuf & (evs & -> & Hevs) & Hrun).
  exists r, lines', ((out ++ evs0) ++ evs).
  split; [by apply suffix_cons_r|].
  split; [exists (evs0 ++ evs); split; [by rewrite (assoc (++)) | by apply Forall_app]|].
  intros w Ha Hb. by rewrite (Hrun (set_console lines (out ++ evs0) w)).
Qed.

Lemma input_problem_uniform a b lines out :
  ∃ r lines' out',
    lines' `suffix_of` lines
    ∧ (∃ evs, out' = out ++ evs ∧ Forall no_row evs)
    ∧ ∀ w, alpha w = a → beta w = b →
           input_problem w lines out = (r, set_console lines' out' w).
Proof.
  revert out. induction lines as [| t rest IH]; intros out.
  - exists (Raise EOFError), [], (out ++ problem_prompt_events).
    split; [done|]. split; [eexists; split; [done | by repeat constructor]|]. done.
  - destruct (decide (is_problem_name (lower t))) as [Ht | Ht].
    + assert (Hp : Forall no_row problem_prompt_events) by (by repeat constructor).
      destruct Ht as [Ht | [Ht | Ht]].
      * destruct (uniform_later _ a b rest out t _ Hp (linear_uniform a b rest _))
          as (r & l' & o' & H1 & H2 & H3).
        exists r, l', o'. split; [done|]. split; [done|]. intros w Ha Hb.
        rewrite input_problem_accept by (by left). simpl. rewrite Ht. simpl. by apply H3.
      * destruct (uniform_later _ a b rest out t _ Hp (cyclic_uniform a b rest _))
          as (r & l' & o' & H1 & H2 & H3).
        exists r, l', o'. split; [done|]. split; [done|]. intros w Ha Hb.
        rewrite input_problem_accept by (right; by left). simpl. rewrite Ht. simpl.
        by apply H3.
      * destruct (uniform_later _ a b rest out t _ Hp (platonic_uniform a b rest _))
          as (r & l' & o' & H1 & H2 & H3).
        exists r, l', o'. split; [done|]. split; [done|]. intros w Ha Hb.
        rewrite input_problem_accept by (right; by right). simpl. rewrite Ht. simpl.
        by apply H3.
    + destruct (String.eqb t "exit") eqn:Ex.
      * exists (Raise SystemExit), rest, (out ++ problem_prompt_events).
        split; [by apply suffix_cons_r|].
        split; [eexists; split; [done | by repeat constructor]|].
        intros w _ _. rewrite input_problem_reject by done. by rewrite Ex.
      * destruct (IH (out ++ problem_prompt_events ++ [Print ""; Print problem_message]))
          as (r & l' & o' & H1 & (evs & -> & Hevs) & H3).
        exists r, l', (out ++ (problem_prompt_events ++ [Print ""; Print problem_message]) ++ evs).
        split; [by apply suffix_cons_r|].
        split; [eexists; split; [done|]; apply Forall_app; split;
                  [by repeat constructor | done]|].
        intros w Ha Hb. rewrite input_problem_reject by done. rewrite Ex.
        rewrite (H3 w Ha Hb). by rewrite <- !(assoc (++)).
Qed.

(** X12. At the kind prompt the word exit, after any number of refused
    answers, ends the program with [SystemExit]: no builder runs, the lines
    after it stay unread, and the module's matrix and the CSV file are left
    as they were. The comparison is exact: an answer such as Exit is
    refused like any other. *)
Theorem exit_at_kind_prompt
    (eigvals : list (list Z) → list Q) (set_ : list Z → list Z)
    (w : world) (skipped rest : list string) :
  stdin w = skipped ++ "exit" :: rest →
  Forall (λ t, ¬ is_problem_name (lower t) ∧ t ≠ "exit") skipped →
  General_Huckel_Solver eigvals set_ w
  = (Raise SystemExit,
     set_console rest
       (stdout w ++ retries (length skipped) problem_retry_events problem_prompt_events)
       w).
Proof.
  intros Hw Hs. rewrite General_run, Hw, input_problem_skip by done.
  rewrite input_problem_reject
    by (unfold is_problem_name; intros [H | [H | H]]; discriminate H).
  simpl. unfold retries. by rewrite <- !(assoc (++)).
Qed.

Lemma exit_at_kind_prompt_witness :
  (stdin (module_init ["Exit"; "exit"; "linear"]) = ["Exit"] ++ "exit" :: ["linear"]
   ∧ Forall (λ t, ¬ is_problem_name (lower t) ∧ t ≠ "exit") ["Exit"])
  ∧ General_Huckel_Solver (λ _, []) remove_dups (module_init ["Exit"; "exit"; "linear"])
    = (Raise SystemExit,
       set_console ["linear"]
         ([] ++ retries 1 problem_retry_events problem_prompt_events)
         (module_init ["Exit"; "exit"; "linear"])).
Proof.
  assert (Hs : Forall (λ t, ¬ is_problem_name (lower t) ∧ t ≠ "exit") ["Exit"]).
  { repeat constructor; try discriminate.
    unfold is_problem_name. intros [H | [H | H]]; discriminate H. }
  split; [by split|].
  exact (exit_at_kind_prompt (λ _, []) remove_dups
           (module_init ["Exit"; "exit"; "linear"]) ["Exit"] ["linear"] eq_refl Hs).
Defined.

Lemma input_problem_console_only w r w' :
  input_problem w (stdin w) (stdout w) = (r, w') → console_only w w'.
Proof.
  destruct (input_problem_uniform (alpha w) (beta w) (stdin w) (stdout w))
    as (r0 & lines' & out' & Hsuf & Hevs & Hrun).
  rewrite (Hrun w eq_refl eq_refl). intros [= _ <-].
  unfold console_only. simpl. done.
Qed.

(** X13. A run of the solver that fails (end of input, exit or none, a
    negative size, size zero for a ring) has changed nothing but the
    console: the module's matrix, alpha and beta are as before, no CSV file
    was opened or written, and no table row was printed. *)
Theorem failed_run_writes_nothing
    (eigvals : list (list Z) → list Q) (set_ : list Z → list Z)
    (w : world) (e : exn) (w' : world) :
  General_Huckel_Solver eigvals set_ w = (Raise e, w') → console_only w w'.
Proof.
  rewrite General_run.
  destruct (input_problem w (stdin w) (stdout w)) as [[m|e0] w1] eqn:E; [done|].
  intros [= _ <-]. by eapply input_problem_console_only.
Qed.

Lemma failed_run_writes_nothing_witness :
  General_Huckel_Solver (λ _, []) remove_dups stale_module
  = (Raise IndexError, stale_module_failed)
  ∧ console_only stale_module stale_module_failed.
Proof.
  assert (H : General_Huckel_Solver (λ _, []) remove_dups stale_module
              = (Raise IndexError, stale_module_failed)) by reflexivity.
  split; [exact H|].
  exact (failed_run_writes_nothing (λ _, []) remove_dups stale_module IndexError
           stale_module_failed H).
Defined.

(** X14. A successful run stores the built matrix in the module, leaves
    alpha and beta alone, and replaces the CSV file: started from two
    states that agree on alpha, beta and the console but differ in the old
    matrix or in the old content of the file, it ends in the same state. *)
Theorem successful_run_overwrites
    (eigvals : list (list Z) → list Q) (set_ : list Z → list Z)
    (w v w' : world) :
  alpha v = alpha w → beta v = beta w → stdin v = stdin w → stdout v = stdout w →
  General_Huckel_Solver eigvals set_ w = (Ok tt, w') →
  General_Huckel_Solver eigvals set_ v = (Ok tt, w')
  ∧ alpha w' = alpha w ∧ beta w' = beta w
  ∧ (∃ k, built_as k (alpha w) (beta w) (matrix w'))
  ∧ stdin w' `suffix_of` stdin w.
Proof.
  intros Ha Hb Hin Hout. rewrite !General_run, Hin, Hout.
  destruct (input_problem_uniform (alpha w) (beta w) (stdin w) (stdout w))
    as (r & lines' & out' & Hsuf & Hevs & Hrun).
  pose proof (input_problem_built w (stdin w) (stdout w)) as Hbuilt.
  rewrite (Hrun w eq_refl eq_refl) in *. rewrite (Hrun v Ha Hb).
  destruct r as [m|e0]; [|done]. intros [= <-].
  split; [|split; [done|]; split; [done|]; split; [|done]].
  - unfold report_world, set_csv, emit, set_console, set_matrix. simpl.
    by rewrite Ha, Hb.
  - simpl. by eapply Hbuilt.
Qed.

Lemma successful_run_overwrites_witness :
  ∃ w',
    General_Huckel_Solver (λ _, [1; -1]%Q) remove_dups fresh_two_chain = (Ok tt, w')
    ∧ General_Huckel_Solver (λ _, [1; -1]%Q) remove_dups stale_two_chain = (Ok tt, w')
    ∧ matrix w' = [[0; -1]; [-1; 0]].
Proof.
  assert (H : ∃ w', General_Huckel_Solver (λ _, [1; -1]%Q) remove_dups fresh_two_chain
                    = (Ok tt, w')
                    ∧ matrix w' = [[0; -1]; [-1; 0]])
    by (eexists; split; [vm_compute; reflexivity | reflexivity]).
  destruct H as (w' & Hrun & Hm). exists w'.
  split; [exact Hrun|]. split; [|exact Hm].
  exact (proj1 (successful_run_overwrites (λ _, [1; -1]%Q) remove_dups
                  fresh_two_chain stale_two_chain w'
                  eq_refl eq_refl eq_refl eq_refl Hrun)).
Defined.

(** ** Rounding and the rows of the table *)

Lemma round3_bound (q : Q) :
  - Z.pos (Qden q) ≤ 2 * (1000 * Qnum q - round3 q * Z.pos (Qden q)) ≤ Z.pos (Qden q).
Proof.
  unfold round3.
  set (n := 1000 * Qnum q). set (d := Z.pos (Qden q)).
  assert (Hd : 0 < d) by (unfold d; lia).
  pose proof (Z.div_mod n d ltac:(lia)) as Hdm.
  pose proof (Z.mod_pos_bound n d Hd) as Hr.
  set (fl := n / d) in *. set (r := n mod d) in *.
  destruct (2 * r <? d) eqn:E1; [nia|].
  destruct (d <? 2 * r) eqn:E2; [nia|].
  destruct (Z.even fl); nia.
Qed.

Lemma round3_near (q : Q) :
  ((round3 q # 1000) - (1 # 2000) <= q ∧ q <= (round3 q # 1000) + (1 # 2000))%Q.
Proof.
  pose proof (round3_bound q) as Hb. destruct q as [a d]. simpl in Hb.
  unfold Qle, Qminus, Qplus, Qopp. simpl.
  split; nia.
Qed.

Lemma round3_separates (e1 e2 : Q) :
  (1 # 1000 < e1 - e2)%Q → round3 e2 < round3 e1.
Proof.
  intros Hlt.
  pose proof (round3_bound e1) as H1. pose proof (round3_bound e2) as H2.
  destruct e1 as [a1 d1], e2 as [a2 d2]. simpl in H1, H2.
  unfold Qlt, Qminus, Qplus, Qopp in Hlt. simpl in Hlt.
  rewrite Pos2Z.inj_mul in Hlt.
  destruct (decide (round3 (a2 # d2) < round3 (a1 # d1))) as [|Hge]; [done|].
  exfalso.
  set (k1 := round3 (a1 # d1)) in *. set (k2 := round3 (a2 # d2)) in *.
  assert (Hk : k1 ≤ k2) by lia.
  assert (0 < Z.pos d1) by lia. assert (0 < Z.pos d2) by lia.
  assert (Hp : k1 * (Z.pos d1 * Z.pos d2) ≤ k2 * (Z.pos d1 * Z.pos d2)) by nia.
  nia.
Qed.

Lemma filter_length_pos {A} (P : A → Prop) `{∀ x, Decision (P x)} (l : list A) (x : A) :
  x ∈ l → P x → (1 ≤ length (filter P l))%nat.
Proof.
  intros Hx HP.
  assert (Hin : x ∈ filter P l) by (by apply list_elem_of_filter).
  destruct (filter P l); [by apply elem_of_nil in Hin | simpl; lia].
Qed.

Lemma table_rows (eigvals : list (list Z) → list Q) (set_ : list Z → list Z) (w : world) :
  set_spec set_ →
  ∃ levels : list level,
    Degeneracy_count eigvals set_ w = (Ok (header :: (level_row <$> levels)), w)
    ∧ ∀ x c, (x, c) ∈ levels
             ↔ x ∈ round3 <$> eigvals (matrix w)
               ∧ c = Z.of_nat (length (filter (λ e, round3 e = x) (eigvals (matrix w)))).
Proof.
  intros Hset. exists (levels_of set_ (merge_sort Qle (eigvals (matrix w)))).
  split; [apply Degeneracy_count_eq|].
  intros x c. rewrite levels_of_elem by done.
  assert (Hp : round3 <$> merge_sort Qle (eigvals (matrix w))
               ≡ₚ round3 <$> eigvals (matrix w))
    by (apply fmap_Permutation, merge_sort_Permutation).
  rewrite (count_occ_Permutation _ _ x Hp), count_occ_round3.
  by rewrite Hp.
Qed.

(** X15. Every eigenvalue is counted in a row of the table, and the key of
    that row is the eigenvalue to within half a thousandth. *)
Theorem eigenvalue_has_its_row
    (eigvals : list (list Z) → list Q) (set_ : list Z → list Z) (w : world) (e : Q) :
  set_spec set_ →
  e ∈ eigvals (matrix w) →
  ∃ levels c,
    Degeneracy_count eigvals set_ w = (Ok (header :: (level_row <$> levels)), w)
    ∧ (round3 e, c) ∈ levels
    ∧ 1 ≤ c
    ∧ ((round3 e # 1000) - (1 # 2000) <= e ∧ e <= (round3 e # 1000) + (1 # 2000))%Q.
Proof.
  intros Hset He.
  destruct (table_rows eigvals set_ w Hset) as (levels & Hrun & Hel).
  exists levels. eexists. split; [done|]. split; [|split; [|apply round3_near]].
  - apply Hel. split; [|reflexivity]. apply list_elem_of_fmap. by exists e.
  - pose proof (filter_length_pos (λ e0, round3 e0 = round3 e) _ e He eq_refl). lia.
Qed.

Lemma eigenvalue_has_its_row_witness :
  (set_spec remove_dups ∧ (1 # 10000)%Q ∈ noisy_spectrum)
  ∧ ∃ levels c,
      Degeneracy_count (λ _, noisy_spectrum) remove_dups (module_init [])
      = (Ok (header :: (level_row <$> levels)), module_init [])
      ∧ (round3 (1 # 10000), c) ∈ levels
      ∧ 1 ≤ c
      ∧ ((round3 (1 # 10000) # 1000) - (1 # 2000) <= 1 # 10000
         ∧ 1 # 10000 <= (round3 (1 # 10000) # 1000) + (1 # 2000))%Q.
Proof.
  assert (He : (1 # 10000)%Q ∈ noisy_spectrum) by (right; by left).
  split; [split; [exact remove_dups_set_spec | exact He]|].
  exact (eigenvalue_has_its_row (λ _, noisy_spectrum) remove_dups (module_init [])
           (1 # 10000) remove_dups_set_spec He).
Defined.

(** X16. Two eigenvalues that differ by more than 0.001 are never grouped:
    they are counted in two different rows, the smaller one in the row
    with the smaller key. (At a difference of exactly 0.001 they can share
    a row: 0.0005 and -0.0005 both round to 0.000.) *)
Theorem distant_levels_stay_apart
    (eigvals : list (list Z) → list Q) (set_ : list Z → list Z) (w : world) (e1 e2 : Q) :
  set_spec set_ →
  e1 ∈ eigvals (matrix w) →
  e2 ∈ eigvals (matrix w) →
  (1 # 1000 < e1 - e2)%Q →
  ∃ levels c1 c2,
    Degeneracy_count eigvals set_ w = (Ok (header :: (level_row <$> levels)), w)
    ∧ (round3 e1, c1) ∈ levels
    ∧ (round3 e2, c2) ∈ levels
    ∧ round3 e2 < round3 e1.
Proof.
  intros Hset H1 H2 Hlt.
  destruct (table_rows eigvals set_ w Hset) as (levels & Hrun & Hel).
  exists levels. eexists _, _. split; [done|].
  split; [|split; [|by apply round3_separates]].
  - apply Hel. split; [|reflexivity]. apply list_elem_of_fmap. by exists e1.
  - apply Hel. split; [|reflexivity]. apply list_elem_of_fmap. by exists e2.
Qed.

Example half_thousandths_share_a_row :
  round3 (5 # 10000) = 0 ∧ round3 (-5 # 10000) = 0
  ∧ ((5 # 10000) - (-5 # 10000) == 1 # 1000)%Q.
Proof. by vm_compute. Qed.

Lemma distant_levels_stay_apart_witness :
  (set_spec remove_dups
   ∧ (21 # 10000)%Q ∈ close_spectrum ∧ (1 # 1000)%Q ∈ close_spectrum
   ∧ (1 # 1000 < (21 # 10000) - (1 # 1000))%Q)
  ∧ ∃ levels c1 c2,
      Degeneracy_count (λ _, close_spectrum) remove_dups (module_init [])
      = (Ok (header :: (level_row <$> levels)), module_init [])
      ∧ (round3 (21 # 10000), c1) ∈ levels
      ∧ (round3 (1 # 1000), c2) ∈ levels
      ∧ round3 (1 # 1000) < round3 (21 # 10000).
Proof.
  assert (H1 : (21 # 10000)%Q ∈ close_spectrum) by (right; by left).
  assert (H2 : (1 # 1000)%Q ∈ close_spectrum) by (by left).
  assert (Hlt : (1 # 1000 < (21 # 10000) - (1 # 1000))%Q) by reflexivity.
  split; [split; [exact remove_dups_set_spec | by repeat split]|].
  exact (distant_levels_stay_apart (λ _, close_spectrum) remove_dups (module_init [])
           (21 # 10000) (1 # 1000) remove_dups_set_spec H1 H2 Hlt).
Defined.

(** X17. The table depends on the eigenvalues only as a multiset: two
    eigenvalue routines that return the same values for the module's
    matrix, in any order, give the same table. *)
Theorem table_ignores_eigenvalue_order
    (eigvals1 eigvals2 : list (list Z) → list Q) (set_ : list Z → list Z) (w : world) :
  set_spec set_ →
  eigvals1 (matrix w) ≡ₚ eigvals2 (matrix w) →
  Degeneracy_count eigvals1 set_ w = Degeneracy_count eigvals2 set_ w.
Proof.
  intros Hset Hp. rewrite !Degeneracy_count_eq.
  enough (Hl : levels_of set_ (merge_sort Qle (eigvals1 (matrix w)))
               = levels_of set_ (merge_sort Qle (eigvals2 (matrix w))))
    by (by rewrite Hl).
  assert (Hn : round3 <$> merge_sort Qle (eigvals1 (matrix w))
               ≡ₚ round3 <$> merge_sort Qle (eigvals2 (matrix w)))
    by (apply fmap_Permutation; by rewrite !merge_sort_Permutation).
  unfold levels_of.
  apply (Sorted_unique level_le); [apply Sorted_merge_sort, _ .. |].
  etrans; [apply merge_sort_Permutation|].
  symmetry. etrans; [apply merge_sort_Permutation|]. symmetry.
  destruct (Hset (round3 <$> merge_sort Qle (eigvals1 (matrix w)))) as [Hnd1 He1].
  destruct (Hset (round3 <$> merge_sort Qle (eigvals2 (matrix w)))) as [Hnd2 He2].
  transitivity ((λ x, (x, Z.of_nat (count_occ Z.eq_dec
                   (round3 <$> merge_sort Qle (eigvals2 (matrix w))) x)))
                  <$> set_ (round3 <$> merge_sort Qle (eigvals1 (matrix w)))).
  - assert (Heq : ∀ l : list Z,
              (λ x, (x, Z.of_nat (count_occ Z.eq_dec
                 (round3 <$> merge_sort Qle (eigvals1 (matrix w))) x))) <$> l
              = (λ x, (x, Z.of_nat (count_occ Z.eq_dec
                   (round3 <$> merge_sort Qle (eigvals2 (matrix w))) x))) <$> l).
    { intros l. apply list_fmap_ext. intros _ x _.
      by rewrite (count_occ_Permutation _ _ x Hn). }
    by rewrite Heq.
  - apply fmap_Permutation, NoDup_Permutation; [done | done |].
    intros x. by rewrite He1, He2, Hn.
Qed.

Lemma table_ignores_eigenvalue_order_witness :
  (set_spec remove_dups
   ∧ (λ _ : list (list Z), [2; 0; 0; -2]%Q) (matrix (module_init []))
     ≡ₚ (λ _ : list (list Z), [0; -2; 2; 0]%Q) (matrix (module_init [])))
  ∧ Degeneracy_count (λ _, [2; 0; 0; -2]%Q) remove_dups (module_init [])
    = Degeneracy_count (λ _, [0; -2; 2; 0]%Q) remove_dups (module_init []).
Proof.
  assert (Hp : (λ _ : list (list Z), [2; 0; 0; -2]%Q) (matrix (module_init []))
               ≡ₚ (λ _ : list (list Z), [0; -2; 2; 0]%Q) (matrix (module_init []))).
  { simpl. apply (Permutation_trans (l' := [0; 2; 0; -2]%Q)); [apply perm_swap|].
    apply perm_skip.
    apply (Permutation_trans (l' := [2; -2; 0]%Q)); [apply perm_skip, perm_swap|].
    apply perm_swap. }
  split; [split; [exact remove_dups_set_spec | exact Hp]|].
  exact (table_ignores_eigenvalue_order _ _ remove_dups (module_init [])
           remove_dups_set_spec Hp).
Defined.

(** ** The ring against the chain, and the kind prompt *)

(** X18. For n >= 3 and beta <> 0 the ring matrix differs from the chain
    matrix of the same size at the two corners (0, n-1) and (n-1, 0) and
    nowhere else. *)
Theorem ring_differs_at_corners (w : world) (num : string) (rest : list string) (n : Z) :
  stdin w = num :: rest →
  int num = Some n →
  3 ≤ n →
  beta w ≠ 0 →
  ∃ Ml Mc,
    (Huckel_Solver_linear_n_polyene w).1 = Ok Ml
    ∧ (Huckel_Solver_cyclic_n_polyene w).1 = Ok Mc
    ∧ ∀ i j, (i < Z.to_nat n)%nat → (j < Z.to_nat n)%nat →
             (get Mc i j ≠ get Ml i j
              ↔ (i = 0 ∧ S j = Z.to_nat n)%nat ∨ (S i = Z.to_nat n ∧ j = 0)%nat).
Proof.
  intros Hw Hnum Hn Hb.
  destruct (linear_fill_entries (alpha w) (beta w) n ltac:(lia)) as (Ml & Hl & _ & Hel).
  destruct (cyclic_fill_entries (alpha w) (beta w) n ltac:(lia)) as (Mc & Hc & _ & Hec).
  exists Ml, Mc.
  rewrite linear_run, cyclic_run, !(ask_int_accept _ w num rest n) by done.
  split; [done|]. split; [done|].
  intros i j Hi Hj. rewrite (Hel i j Hi Hj), (Hec i j Hi Hj).
  unfold ring_value.
  destruct (decide ((i = 0 ∧ S j = Z.to_nat n) ∨ (S i = Z.to_nat n ∧ j = 0))%nat)
    as [Hcorner | Hinner].
  - split; [done|]. intros _. unfold chain_value.
    repeat case_decide; try lia; intros [= Heq]; congruence.
  - split; [intros Hne; by destruct Hne | tauto].
Qed.

Lemma ring_differs_at_corners_witness :
  (stdin (module_init ["5"]) = ["5"] ∧ int "5" = Some 5 ∧ 3 ≤ 5 ∧ -1 ≠ 0)
  ∧ ∃ Ml Mc,
      (Huckel_Solver_linear_n_polyene (module_init ["5"])).1 = Ok Ml
      ∧ (Huckel_Solver_cyclic_n_polyene (module_init ["5"])).1 = Ok Mc
      ∧ ∀ i j, (i < Z.to_nat 5)%nat → (j < Z.to_nat 5)%nat →
               (get Mc i j ≠ get Ml i j
                ↔ (i = 0 ∧ S j = Z.to_nat 5)%nat ∨ (S i = Z.to_nat 5 ∧ j = 0)%nat).
Proof.
  split; [repeat split; lia|].
  exact (ring_differs_at_corners (module_init ["5"]) "5" [] 5 eq_refl eq_refl
           ltac:(lia) ltac:(simpl; lia)).
Defined.

(** X19. The solver takes the first answer to the kind prompt that, in
    lower case, is linear, cyclic or platonic solid, having refused every
    earlier answer with its message; it then runs the builder of that kind
    on the remaining input and, if the builder returns a matrix, reports on
    it; a failure of the builder is the failure of the run. *)
Theorem kind_prompt_first_answer
    (eigvals : list (list Z) → list Q) (set_ : list Z → list Z)
    (w : world) (skipped : list string) (t : string) (rest : list string) :
  stdin w = skipped ++ t :: rest →
  Forall (λ t, ¬ is_problem_name (lower t) ∧ t ≠ "exit") skipped →
  let w1 := set_console rest
              (stdout w ++ retries (length skipped) problem_retry_events
                             problem_prompt_events) w in
  (lower t = "linear" →
   General_Huckel_Solver eigvals set_ w
   = after_builder eigvals set_ (Huckel_Solver_linear_n_polyene w1))
  ∧ (lower t = "cyclic" →
     General_Huckel_Solver eigvals set_ w
     = after_builder eigvals set_ (Huckel_Solver_cyclic_n_polyene w1))
  ∧ (lower t = "platonic solid" →
     General_Huckel_Solver eigvals set_ w
     = after_builder eigvals set_ (Huckel_Solver_Platonic_Solid w1)).
Proof.
  intros Hw Hs w1. rewrite General_run, Hw, input_problem_skip by done.
  assert (Hw1 : set_console rest
                  ((stdout w ++ concat (replicate (length skipped) problem_retry_events))
                   ++ problem_prompt_events) w = w1)
    by (subst w1; unfold retries; by rewrite <- !(assoc (++))).
  repeat split; intros Ht.
  - rewrite input_problem_accept by (by left). simpl. rewrite Ht. simpl.
    rewrite Hw1. unfold after_builder. by destruct (Huckel_Solver_linear_n_polyene w1) as [[]].
  - rewrite input_problem_accept by (right; by left). simpl. rewrite Ht. simpl.
    rewrite Hw1. unfold after_builder. by destruct (Huckel_Solver_cyclic_n_polyene w1) as [[]].
  - rewrite input_problem_accept by (right; by right). simpl. rewrite Ht. simpl.
    rewrite Hw1. unfold after_builder. by destruct (Huckel_Solver_Platonic_Solid w1) as [[]].
Qed.

Lemma kind_prompt_first_answer_witness :
  (stdin (module_init ["ring"; "CYCLIC"; "-1"]) = ["ring"] ++ "CYCLIC" :: ["-1"]
   ∧ Forall (λ t, ¬ is_problem_name (lower t) ∧ t ≠ "exit") ["ring"]
   ∧ lower "CYCLIC" = "cyclic")
  ∧ General_Huckel_Solver (λ _, []) remove_dups (module_init ["ring"; "CYCLIC"; "-1"])
    = after_builder (λ _, []) remove_dups
        (Huckel_Solver_cyclic_n_polyene
           (set_console ["-1"]
              ([] ++ retries 1 problem_retry_events problem_prompt_events)
              (module_init ["ring"; "CYCLIC"; "-1"]))).
Proof.
  assert (Hs : Forall (λ t, ¬ is_problem_name (lower t) ∧ t ≠ "exit") ["ring"]).
  { repeat constructor; try discriminate.
    unfold is_problem_name. intros [H | [H | H]]; discriminate H. }
  split; [by repeat split|].
  exact (proj1 (proj2 (kind_prompt_first_answer (λ _, []) remove_dups
                         (module_init ["ring"; "CYCLIC"; "-1"]) ["ring"] "CYCLIC" ["-1"]
                         eq_refl Hs)) eq_refl).
Defined.
